(** * A shallow embedding of the string service (main.go)

    The service offers four operations on Go strings (Uppercase, Count,
    Reverse, Truncate) and wraps each in an endpoint that turns the
    operation's result into a response struct.

    A Go string is an immutable sequence of bytes; [len], slicing and
    indexing work on bytes, while the conversions [[]rune(s)] and
    [string(r)] decode and encode UTF-8.  Both views are modelled here,
    because the operations of the service mix them. *)

From Stdlib Require Import ZArith Ascii String Bool Lia.
From stdpp Require Import base list.

Local Open Scope Z_scope.

(** ** Outcomes of Go code: a normal return or a run-time panic *)

Inductive runtimeError : Type :=
  | SliceBoundsOutOfRange
  | IndexOutOfRange
  | InterfaceConversion.

(** [OutOfFuel] is not a behaviour of Go: it marks a loop of the model
    whose iteration bound was used up.  The theorems show the results of
    the service are [Return] or [Panic]. *)
Inductive outcome (A : Type) : Type :=
  | Return (a : A)
  | Panic (e : runtimeError)
  | OutOfFuel.

Arguments Return {A} a.
Arguments Panic {A} e.
Arguments OutOfFuel {A}.

#[global] Instance outcome_ret : MRet outcome := fun A a => Return a.

#[global] Instance outcome_bind : MBind outcome := fun A B k m =>
  match m with
  | Return a => k a
  | Panic e => Panic e
  | OutOfFuel => OutOfFuel
  end.

(** ** Bytes, strings, runes *)

Module Go.

Definition byte := ascii.
Definition gostring := list byte.
Definition rune := Z.

(** The numeric value of a byte, and Go's conversion [byte(x)], which
    keeps the low eight bits. *)
Definition byteval (b : byte) : Z := Z.of_N (N_of_ascii b).
Definition tobyte (x : Z) : byte := ascii_of_N (Z.to_N (x mod 256)).

(** A string literal of the source as a Go string, and the empty one. *)
Definition lit (s : string) : gostring := list_ascii_of_string s.
Definition emptyString : gostring := lit EmptyString.

(** [len(x)] *)
Definition len {A : Type} (l : list A) : Z := Z.of_nat (length l).

(** [s[:l]] on a string: panics unless [0 <= l <= len(s)]. *)
Definition slice_to (s : gostring) (l : Z) : outcome gostring :=
  if (l <? 0) || (len s <? l) then Panic SliceBoundsOutOfRange
  else Return (take (Z.to_nat l) s).

(** [r[i]] as a value, on a slice. *)
Definition index {A : Type} (r : list A) (i : Z) : outcome A :=
  if (i <? 0) || (len r <=? i) then Panic IndexOutOfRange
  else match r !! Z.to_nat i with
       | Some x => Return x
       | None => Panic IndexOutOfRange
       end.

(** [r[i] = x] on a slice. *)
Definition store {A : Type} (r : list A) (i : Z) (x : A) : outcome (list A) :=
  if (i <? 0) || (len r <=? i) then Panic IndexOutOfRange
  else Return (<[Z.to_nat i := x]> r).

(** *** UTF-8 constants (unicode/utf8 and runtime/utf8.go) *)

Definition runeError : rune := 0xFFFD.
Definition runeSelf : Z := 0x80.
Definition maxRune : rune := 0x10FFFF.
Definition surrogateMin : rune := 0xD800.
Definition surrogateMax : rune := 0xDFFF.

Definition tx : Z := 0x80.
Definition t2 : Z := 0xC0.
Definition t3 : Z := 0xE0.
Definition t4 : Z := 0xF0.
Definition t5 : Z := 0xF8.

Definition maskx : Z := 0x3F.
Definition mask2 : Z := 0x1F.
Definition mask3 : Z := 0x0F.
Definition mask4 : Z := 0x07.

Definition rune1Max : Z := 0x7F.
Definition rune2Max : Z := 0x7FF.
Definition rune3Max : Z := 0xFFFF.

Definition locb : Z := 0x80.
Definition hicb : Z := 0xBF.

Definition cont (x : Z) : bool := (locb <=? x) && (x <=? hicb).

(** *** Decoding: [decoderune]

    [decoderune s] decodes the rune that starts [s] and returns it with
    the number of bytes it occupies; an ill-formed or truncated
    sequence gives [runeError] and width 1. *)
Definition decoderune (s : gostring) : rune * nat :=
  match s with
  | [] => (runeError, 1%nat)
  | b0 :: s' =>
    let s0 := byteval b0 in
    if (t2 <=? s0) && (s0 <? t3) then
      match s' with
      | b1 :: _ =>
        let s1 := byteval b1 in
        if cont s1 then
          let r := Z.lor (Z.shiftl (Z.land s0 mask2) 6) (Z.land s1 maskx) in
          if rune1Max <? r then (r, 2%nat) else (runeError, 1%nat)
        else (runeError, 1%nat)
      | _ => (runeError, 1%nat)
      end
    else if (t3 <=? s0) && (s0 <? t4) then
      match s' with
      | b1 :: b2 :: _ =>
        let s1 := byteval b1 in
        let s2 := byteval b2 in
        if cont s1 && cont s2 then
          let r := Z.lor (Z.lor (Z.shiftl (Z.land s0 mask3) 12)
                                (Z.shiftl (Z.land s1 maskx) 6))
                         (Z.land s2 maskx) in
          if (rune2Max <? r) && negb ((surrogateMin <=? r) && (r <=? surrogateMax))
          then (r, 3%nat) else (runeError, 1%nat)
        else (runeError, 1%nat)
      | _ => (runeError, 1%nat)
      end
    else if (t4 <=? s0) && (s0 <? t5) then
      match s' with
      | b1 :: b2 :: b3 :: _ =>
        let s1 := byteval b1 in
        let s2 := byteval b2 in
        let s3 := byteval b3 in
        if cont s1 && cont s2 && cont s3 then
          let r := Z.lor (Z.lor (Z.lor (Z.shiftl (Z.land s0 mask4) 18)
                                       (Z.shiftl (Z.land s1 maskx) 12))
                                (Z.shiftl (Z.land s2 maskx) 6))
                         (Z.land s3 maskx) in
          if (rune3Max <? r) && (r <=? maxRune)
          then (r, 4%nat) else (runeError, 1%nat)
        else (runeError, 1%nat)
      | _ => (runeError, 1%nat)
      end
    else (runeError, 1%nat)
  end.

(** The loop [for _, r := range s]: a byte below [runeSelf] is its own
    rune, anything else goes through [decoderune]; the position then
    advances by the width.  [skip] counts the bytes still to be passed
    over because they belong to the rune decoded last. *)
Fixpoint range_runes (skip : nat) (s : gostring) : list rune :=
  match s with
  | [] => []
  | b :: s' =>
    match skip with
    | S k => range_runes k s'
    | O =>
      if byteval b <? runeSelf then byteval b :: range_runes 0 s'
      else let '(r, w) := decoderune s in r :: range_runes (Nat.pred w) s'
    end
  end.

(** [[]rune(s)] *)
Definition stringtoslicerune (s : gostring) : list rune := range_runes 0 s.

(** *** Encoding: [encoderune]

    The switch is on [uint32(r)], so a negative rune is out of range. *)
Definition encoderune (r : rune) : gostring :=
  let i := r mod 2 ^ 32 in
  if i <=? rune1Max then [tobyte r]
  else if i <=? rune2Max then
    [tobyte (Z.lor t2 (byteval (tobyte (Z.shiftr r 6))));
     tobyte (Z.lor tx (Z.land (byteval (tobyte r)) maskx))]
  else
    let enc3 (r : rune) :=
      [tobyte (Z.lor t3 (byteval (tobyte (Z.shiftr r 12))));
       tobyte (Z.lor tx (Z.land (byteval (tobyte (Z.shiftr r 6))) maskx));
       tobyte (Z.lor tx (Z.land (byteval (tobyte r)) maskx))] in
    if (maxRune <? i) || ((surrogateMin <=? i) && (i <=? surrogateMax))
    then enc3 runeError
    else if i <=? rune3Max then enc3 r
    else
      [tobyte (Z.lor t4 (byteval (tobyte (Z.shiftr r 18))));
       tobyte (Z.lor tx (Z.land (byteval (tobyte (Z.shiftr r 12))) maskx));
       tobyte (Z.lor tx (Z.land (byteval (tobyte (Z.shiftr r 6))) maskx));
       tobyte (Z.lor tx (Z.land (byteval (tobyte r)) maskx))].

(** [string(r)] for a slice of runes *)
Definition slicerunetostring (a : list rune) : gostring :=
  flat_map encoderune a.

(** *** The error interface, as far as the service uses it *)

Inductive error : Type := errorString (s : gostring).

Definition errors_New (text : gostring) : error := errorString text.
Definition Error (e : error) : gostring := let 'errorString s := e in s.

End Go.

Import Go.

(** ** Package strings: [ToUpper] *)

Module Strings.

(** [s == t] on strings *)
Fixpoint streq (s t : gostring) : bool :=
  match s, t with
  | [], [] => true
  | a :: s', b :: t' => Ascii.eqb a b && streq s' t'
  | _, _ => false
  end.

Definition isASCII (s : gostring) : bool :=
  forallb (fun c => byteval c <? runeSelf) s.

(** ['a' <= c && c <= 'z'] *)
Definition isLower (c : Z) : bool := (97 <=? c) && (c <=? 122).

(** [c -= 'a' - 'A'] for a lower-case letter, any other byte is kept. *)
Definition upperByte (c : byte) : byte :=
  if isLower (byteval c) then tobyte (byteval c - (97 - 65)) else c.

Section ToUpper.

(** Outside ASCII, [ToUpper] maps every rune through the Unicode case
    tables of package unicode; they are not part of this program and
    stay abstract. *)
Variable mapUnicodeUpper : gostring -> gostring.

Definition ToUpper (s : gostring) : gostring :=
  if isASCII s then map upperByte s else mapUnicodeUpper s.

End ToUpper.

End Strings.

Import Strings.

(** ** The service *)

(** [ErrEmpty] is returned when an input string is empty. *)
Definition ErrEmpty : error := errors_New (lit "empty string").

(** The interface [StringService].  The results are outcomes, since a
    method call may panic. *)
Class StringService : Type := {
  Uppercase : gostring -> outcome (gostring * option error);
  Count : gostring -> outcome Z;
  Reverse : gostring -> outcome (gostring * option error);
  Truncate : gostring -> Z -> outcome (gostring * option error)
}.

(** The loop of [Reverse]:
    [for i, j := 0, len(r)-1; i < len(r)/2; i, j = i+1, j-1 { r[i], r[j] = r[j], r[i] }].
    The right-hand sides are read first, then the two stores are done from
    left to right.  Lengths fit in an [int], so the index arithmetic does
    not wrap and is done on [Z]. *)
Fixpoint reverse_loop (fuel : nat) (i j : Z) (r : list rune) : outcome (list rune) :=
  if i <? Z.quot (len r) 2 then
    match fuel with
    | O => OutOfFuel
    | S fuel' =>
      rj ← index r j;
      ri ← index r i;
      r1 ← store r i rj;
      r2 ← store r1 j ri;
      reverse_loop fuel' (i + 1) (j - 1) r2
    end
  else Return r.

Module stringService.

Section Methods.

Variable mapUnicodeUpper : gostring -> gostring.

Definition Uppercase (s : gostring) : outcome (gostring * option error) :=
  if streq s emptyString then Return (emptyString, Some ErrEmpty)
  else Return (ToUpper mapUnicodeUpper s, None).

Definition Count (s : gostring) : outcome Z :=
  Return (len s).

Definition Reverse (s : gostring) : outcome (gostring * option error) :=
  if streq s emptyString then Return (emptyString, Some ErrEmpty)
  else
    let r := stringtoslicerune s in
    r' ← reverse_loop (length r) 0 (len r - 1) r;
    Return (slicerunetostring r', None).

Definition Truncate (s : gostring) (l : Z) : outcome (gostring * option error) :=
  if streq s emptyString then Return (emptyString, Some ErrEmpty)
  else
    v ← slice_to s l;
    Return (v, None).

#[export] Instance svc : StringService := {
  Uppercase := Uppercase;
  Count := Count;
  Reverse := Reverse;
  Truncate := Truncate
}.

End Methods.

End stringService.

(** ** Requests, responses and endpoints *)

Record stringRequest : Type := { sreq_S : gostring }.
Record truncateRequest : Type := { treq_S : gostring; treq_L : Z }.
Record uppercaseResponse : Type := { uresp_V : gostring; uresp_Err : gostring }.
Record countResponse : Type := { cresp_V : Z }.
Record reverseResponse : Type := { rresp_V : gostring; rresp_Err : gostring }.
Record truncateResponse : Type := { tresp_V : gostring; tresp_Err : gostring }.

(** A value of type [interface{}], as far as the endpoints see one. *)
Inductive any : Type :=
  | nil_any
  | of_stringRequest (x : stringRequest)
  | of_truncateRequest (x : truncateRequest)
  | of_uppercaseResponse (x : uppercaseResponse)
  | of_countResponse (x : countResponse)
  | of_reverseResponse (x : reverseResponse)
  | of_truncateResponse (x : truncateResponse).

(** The type assertions [request.(stringRequest)] and
    [request.(truncateRequest)] *)
Definition assert_stringRequest (request : any) : outcome stringRequest :=
  match request with
  | of_stringRequest x => Return x
  | _ => Panic InterfaceConversion
  end.

Definition assert_truncateRequest (request : any) : outcome truncateRequest :=
  match request with
  | of_truncateRequest x => Return x
  | _ => Panic InterfaceConversion
  end.

(** [endpoint.Endpoint]; the context is not used by any endpoint. *)
Definition Endpoint : Type := any -> outcome (any * option error).

Section Endpoints.

Context (svc : StringService).

Definition makeUppercaseEndpoint : Endpoint := fun request =>
  req ← assert_stringRequest request;
  '(v, err) ← Uppercase (sreq_S req);
  match err with
  | Some e => Return (of_uppercaseResponse {| uresp_V := v; uresp_Err := Error e |}, None)
  | None => Return (of_uppercaseResponse {| uresp_V := v; uresp_Err := emptyString |}, None)
  end.

Definition makeCountEndpoint : Endpoint := fun request =>
  req ← assert_stringRequest request;
  v ← Count (sreq_S req);
  Return (of_countResponse {| cresp_V := v |}, None).

(** The reverse endpoint answers with an [uppercaseResponse]. *)
Definition makeReverseEndpoint : Endpoint := fun request =>
  req ← assert_stringRequest request;
  '(v, err) ← Reverse (sreq_S req);
  match err with
  | Some e => Return (of_uppercaseResponse {| uresp_V := v; uresp_Err := Error e |}, None)
  | None => Return (of_uppercaseResponse {| uresp_V := v; uresp_Err := emptyString |}, None)
  end.

Definition makeTruncateEndpoint : Endpoint := fun request =>
  req ← assert_truncateRequest request;
  '(v, err) ← Truncate (treq_S req) (treq_L req);
  match err with
  | Some e => Return (of_truncateResponse {| tresp_V := v; tresp_Err := Error e |}, None)
  | None => Return (of_truncateResponse {| tresp_V := v; tresp_Err := emptyString |}, None)
  end.

End Endpoints.

(** ** Predicates of the statements *)

(** [utf8.ValidRune]: a code point that is not a surrogate half. *)
Definition ValidRune (r : rune) : bool :=
  (0 <=? r) && (r <=? maxRune) && negb ((surrogateMin <=? r) && (r <=? surrogateMax)).

(** [utf8.ValidString]: ranging over [s] meets no ill-formed sequence,
    that is, every rune that [decoderune] is asked for is wider than one
    byte. *)
Fixpoint valid_from (skip : nat) (s : gostring) : bool :=
  match s with
  | [] => true
  | b :: s' =>
    match skip with
    | S k => valid_from k s'
    | O =>
      if byteval b <? runeSelf then valid_from 0 s'
      else let '(_, w) := decoderune s in (1 <? w)%nat && valid_from (Nat.pred w) s'
    end
  end.

Definition ValidString (s : gostring) : bool := valid_from 0 s.

(** The number of characters (code points) of a string, as
    [utf8.RuneCountInString] counts them. *)
Definition RuneCount (s : gostring) : Z := len (stringtoslicerune s).

(** The first [l] characters of a string. *)
Definition first_chars (l : Z) (s : gostring) : gostring :=
  slicerunetostring (take (Z.to_nat l) (stringtoslicerune s)).

(** A string without the letters a to z. *)
Definition no_lowercase (s : gostring) : bool :=
  forallb (fun c => negb (isLower (byteval c))) s.

(** A Go string given by the values of its bytes. *)
Definition bytes (l : list Z) : gostring := map tobyte l.

(** ** The arithmetic reading of the decoder

    The value that [decoderune] assembles with masks, shifts and ors from
    the bytes of a sequence, written with [mod], [*] and [+]. *)

Definition dec2 (s0 s1 : Z) : Z := s0 mod 32 * 64 + s1 mod 64.
Definition dec3 (s0 s1 s2 : Z) : Z := s0 mod 16 * 4096 + s1 mod 64 * 64 + s2 mod 64.
Definition dec4 (s0 s1 s2 s3 : Z) : Z :=
  s0 mod 8 * 262144 + s1 mod 64 * 4096 + s2 mod 64 * 64 + s3 mod 64.

(** [decoded s r w]: the ways [decoderune s] comes to the rune [r] of
    width [w]. *)
Inductive decoded : gostring -> rune -> nat -> Prop :=
  | decoded_error s : decoded s runeError 1
  | decoded_2 b0 b1 rest :
      0xC0 <= byteval b0 < 0xE0 ->
      0x80 <= byteval b1 <= 0xBF ->
      0x7F < dec2 (byteval b0) (byteval b1) ->
      decoded (b0 :: b1 :: rest) (dec2 (byteval b0) (byteval b1)) 2
  | decoded_3 b0 b1 b2 rest :
      0xE0 <= byteval b0 < 0xF0 ->
      0x80 <= byteval b1 <= 0xBF ->
      0x80 <= byteval b2 <= 0xBF ->
      0x7FF < dec3 (byteval b0) (byteval b1) (byteval b2) ->
      ~ (0xD800 <= dec3 (byteval b0) (byteval b1) (byteval b2) <= 0xDFFF) ->
      decoded (b0 :: b1 :: b2 :: rest) (dec3 (byteval b0) (byteval b1) (byteval b2)) 3
  | decoded_4 b0 b1 b2 b3 rest :
      0xF0 <= byteval b0 < 0xF8 ->
      0x80 <= byteval b1 <= 0xBF ->
      0x80 <= byteval b2 <= 0xBF ->
      0x80 <= byteval b3 <= 0xBF ->
      0xFFFF < dec4 (byteval b0) (byteval b1) (byteval b2) (byteval b3) <= 0x10FFFF ->
      decoded (b0 :: b1 :: b2 :: b3 :: rest)
              (dec4 (byteval b0) (byteval b1) (byteval b2) (byteval b3)) 4.

(** * Properties *)

(** ** Bytes and bit operations *)

Lemma byteval_range b : 0 <= byteval b < 256.
Proof.
  unfold byteval. pose proof (N_ascii_bounded b). lia.
Qed.

Lemma byteval_tobyte x : byteval (tobyte x) = x mod 256.
Proof.
  unfold byteval, tobyte.
  assert (0 <= x mod 256 < 256) by (apply Z.mod_pos_bound; lia).
  rewrite N_ascii_embedding by lia. lia.
Qed.

Lemma tobyte_byteval b : tobyte (byteval b) = b.
Proof.
  unfold tobyte. pose proof (byteval_range b).
  rewrite Z.mod_small by lia. unfold byteval.
  rewrite N2Z.id. apply ascii_N_embedding.
Qed.

Lemma testbit_high n b i : 0 <= n -> 0 <= b < 2 ^ n -> n <= i -> Z.testbit b i = false.
Proof.
  intros Hn Hb Hi. rewrite <- (Z.mod_small b (2 ^ n)) by lia.
  apply Z.mod_pow2_bits_high. lia.
Qed.

Lemma lor_add n a b :
  0 <= n -> a mod 2 ^ n = 0 -> 0 <= b < 2 ^ n -> Z.lor a b = a + b.
Proof.
  intros Hn Ha Hb.
  assert (Hland : Z.land a b = 0).
  { apply Z.bits_inj'. intros i Hi. rewrite Z.land_spec, Z.bits_0.
    destruct (Z_lt_le_dec i n) as [Hlt|Hge].
    - rewrite <- (Z.mod_pow2_bits_low a n i) by lia. rewrite Ha, Z.bits_0. reflexivity.
    - rewrite (testbit_high n b i) by lia. apply andb_false_r. }
  rewrite Z.add_nocarry_lxor by exact Hland.
  symmetry. apply Z.lxor_lor. exact Hland.
Qed.

Lemma land_maskx x : Z.land x maskx = x mod 64.
Proof. change maskx with (Z.ones 6). rewrite Z.land_ones by lia. reflexivity. Qed.
Lemma land_mask2 x : Z.land x mask2 = x mod 32.
Proof. change mask2 with (Z.ones 5). rewrite Z.land_ones by lia. reflexivity. Qed.
Lemma land_mask3 x : Z.land x mask3 = x mod 16.
Proof. change mask3 with (Z.ones 4). rewrite Z.land_ones by lia. reflexivity. Qed.
Lemma land_mask4 x : Z.land x mask4 = x mod 8.
Proof. change mask4 with (Z.ones 3). rewrite Z.land_ones by lia. reflexivity. Qed.

Lemma shiftl_6 x : Z.shiftl x 6 = x * 64.
Proof. rewrite Z.shiftl_mul_pow2 by lia. reflexivity. Qed.
Lemma shiftl_12 x : Z.shiftl x 12 = x * 4096.
Proof. rewrite Z.shiftl_mul_pow2 by lia. reflexivity. Qed.
Lemma shiftl_18 x : Z.shiftl x 18 = x * 262144.
Proof. rewrite Z.shiftl_mul_pow2 by lia. reflexivity. Qed.
Lemma shiftr_6 x : Z.shiftr x 6 = x / 64.
Proof. rewrite Z.shiftr_div_pow2 by lia. reflexivity. Qed.
Lemma shiftr_12 x : Z.shiftr x 12 = x / 4096.
Proof. rewrite Z.shiftr_div_pow2 by lia. reflexivity. Qed.
Lemma shiftr_18 x : Z.shiftr x 18 = x / 262144.
Proof. rewrite Z.shiftr_div_pow2 by lia. reflexivity. Qed.

Ltac bits_to_arith :=
  rewrite ?land_maskx, ?land_mask2, ?land_mask3, ?land_mask4,
          ?shiftl_6, ?shiftl_12, ?shiftl_18, ?shiftr_6, ?shiftr_12, ?shiftr_18.

Ltac divmod := Z.div_mod_to_equations; lia.

Lemma lor_dec2 s0 s1 :
  Z.lor (Z.shiftl (Z.land s0 mask2) 6) (Z.land s1 maskx) = dec2 s0 s1.
Proof.
  bits_to_arith. unfold dec2.
  apply (lor_add 6); [lia | change (2 ^ 6) with 64; divmod | change (2 ^ 6) with 64; divmod].
Qed.

Lemma lor_dec3 s0 s1 s2 :
  Z.lor (Z.lor (Z.shiftl (Z.land s0 mask3) 12) (Z.shiftl (Z.land s1 maskx) 6))
        (Z.land s2 maskx) = dec3 s0 s1 s2.
Proof.
  bits_to_arith. unfold dec3.
  rewrite (lor_add 12 (s0 mod 16 * 4096)); [ | lia | change (2 ^ 12) with 4096; divmod ..].
  apply (lor_add 6); [lia | change (2 ^ 6) with 64; divmod ..].
Qed.

Lemma lor_dec4 s0 s1 s2 s3 :
  Z.lor (Z.lor (Z.lor (Z.shiftl (Z.land s0 mask4) 18) (Z.shiftl (Z.land s1 maskx) 12))
               (Z.shiftl (Z.land s2 maskx) 6))
        (Z.land s3 maskx) = dec4 s0 s1 s2 s3.
Proof.
  bits_to_arith. unfold dec4.
  rewrite (lor_add 18 (s0 mod 8 * 262144)); [ | lia | change (2 ^ 18) with 262144; divmod ..].
  rewrite (lor_add 12 (s0 mod 8 * 262144 + s1 mod 64 * 4096)); [ | lia | change (2 ^ 12) with 4096; divmod ..].
  apply (lor_add 6); [lia | change (2 ^ 6) with 64; divmod ..].
Qed.

(** ** [encoderune] by range of the rune *)

Ltac unfold_consts :=
  unfold cont, runeError, runeSelf, maxRune, surrogateMin, surrogateMax,
    tx, t2, t3, t4, t5, rune1Max, rune2Max, rune3Max, locb, hicb in *.

Ltac decide_tests :=
  repeat match goal with
  | |- context [?a <=? ?b] => destruct (Z.leb_spec a b); try lia
  | |- context [?a <? ?b] => destruct (Z.ltb_spec a b); try lia
  end; cbn [andb orb negb].

Ltac bytes_eq :=
  repeat first
    [ reflexivity
    | apply (f_equal2 (@cons byte)); [apply (f_equal tobyte); divmod | ] ].

Lemma encoderune_1 r : 0 <= r <= 0x7F -> encoderune r = [tobyte r].
Proof.
  intros Hr. unfold encoderune. cbv zeta.
  change (2 ^ 32) with 4294967296. rewrite Z.mod_small by lia.
  unfold_consts. decide_tests; reflexivity.
Qed.

Lemma encoderune_2 r :
  0x80 <= r <= 0x7FF ->
  encoderune r = [tobyte (192 + r / 64); tobyte (128 + r mod 64)].
Proof.
  intros Hr. unfold encoderune. cbv zeta.
  change (2 ^ 32) with 4294967296. rewrite Z.mod_small by lia.
  unfold_consts. decide_tests.
  rewrite !byteval_tobyte. bits_to_arith.
  rewrite (lor_add 5 192) by (change (2 ^ 5) with 32; divmod).
  rewrite (lor_add 6 128) by (change (2 ^ 6) with 64; divmod).
  bytes_eq.
Qed.

Lemma encoderune_3 r :
  0x800 <= r <= 0xFFFF -> ~ (0xD800 <= r <= 0xDFFF) ->
  encoderune r =
    [tobyte (224 + r / 4096); tobyte (128 + r / 64 mod 64); tobyte (128 + r mod 64)].
Proof.
  intros Hr Hs. unfold encoderune. cbv zeta.
  change (2 ^ 32) with 4294967296. rewrite Z.mod_small by lia.
  unfold_consts. decide_tests.
  all: rewrite !byteval_tobyte; bits_to_arith.
  all: rewrite (lor_add 4 224) by (change (2 ^ 4) with 16; divmod).
  all: rewrite !(lor_add 6 128) by (change (2 ^ 6) with 64; divmod).
  all: bytes_eq.
Qed.

Lemma encoderune_4 r :
  0x10000 <= r <= 0x10FFFF ->
  encoderune r =
    [tobyte (240 + r / 262144); tobyte (128 + r / 4096 mod 64);
     tobyte (128 + r / 64 mod 64); tobyte (128 + r mod 64)].
Proof.
  intros Hr. unfold encoderune. cbv zeta.
  change (2 ^ 32) with 4294967296. rewrite Z.mod_small by lia.
  unfold_consts. decide_tests.
  rewrite !byteval_tobyte; bits_to_arith.
  rewrite (lor_add 3 240) by (change (2 ^ 3) with 8; divmod).
  rewrite !(lor_add 6 128) by (change (2 ^ 6) with 64; divmod).
  bytes_eq.
Qed.

(** Out of range or surrogate: the encoding of [runeError]. *)
Lemma encoderune_invalid r :
  - 2 ^ 31 <= r < 2 ^ 31 -> ValidRune r = false ->
  encoderune r = encoderune runeError.
Proof.
  intros Hr Hv. unfold ValidRune in Hv.
  rewrite (encoderune_3 runeError) by (unfold runeError; lia).
  unfold encoderune. cbv zeta.
  change (2 ^ 32) with 4294967296. change (2 ^ 31) with 2147483648 in Hr.
  unfold_consts.
  destruct (Z_lt_le_dec r 0) as [Hneg|Hpos].
  - assert (Hm : r mod 4294967296 = r + 4294967296) by divmod.
    rewrite Hm. decide_tests.
    rewrite !byteval_tobyte; bits_to_arith.
    rewrite (lor_add 4 224) by (change (2 ^ 4) with 16; divmod).
    rewrite !(lor_add 6 128) by (change (2 ^ 6) with 64; divmod).
    reflexivity.
  - rewrite Z.mod_small by lia.
    revert Hv. decide_tests; intros Hv; try discriminate.
    all: rewrite !byteval_tobyte; bits_to_arith.
    all: rewrite (lor_add 4 224) by (change (2 ^ 4) with 16; divmod).
    all: rewrite !(lor_add 6 128) by (change (2 ^ 6) with 64; divmod).
    all: reflexivity.
Qed.

(** ** [decoderune] by shape of the sequence *)

Ltac bool_to_prop :=
  repeat match goal with
  | H : _ && _ = true |- _ => apply andb_true_iff in H; destruct H
  | H : negb _ = true |- _ => apply negb_true_iff in H
  | H : _ && _ = false |- _ => apply andb_false_iff in H
  | H : (_ <=? _) = true |- _ => apply Z.leb_le in H
  | H : (_ <=? _) = false |- _ => apply Z.leb_gt in H
  | H : (_ <? _) = true |- _ => apply Z.ltb_lt in H
  | H : (_ <? _) = false |- _ => apply Z.ltb_ge in H
  end.

Lemma decoderune_decoded s : decoded s (decoderune s).1 (decoderune s).2.
Proof.
  destruct s as [|b0 s]; [apply decoded_error|].
  unfold decoderune. cbv zeta. unfold_consts.
  repeat match goal with
  | |- decoded _ (if ?c then _ else _).1 _ => destruct c eqn:?
  | |- decoded _ (match ?l with [] => _ | _ :: _ => _ end).1 _ => destruct l
  end; cbn [fst snd]; try apply decoded_error;
  rewrite ?lor_dec2, ?lor_dec3, ?lor_dec4 in *; bool_to_prop.
  - apply decoded_2; lia.
  - apply decoded_3; lia.
  - apply decoded_4; lia.
Qed.

Lemma decoderune_2 b0 b1 rest :
  0xC0 <= byteval b0 < 0xE0 -> 0x80 <= byteval b1 <= 0xBF ->
  0x7F < dec2 (byteval b0) (byteval b1) ->
  decoderune (b0 :: b1 :: rest) = (dec2 (byteval b0) (byteval b1), 2%nat).
Proof.
  intros H0 H1 Hr. unfold decoderune. cbv zeta. rewrite lor_dec2.
  unfold_consts. decide_tests; reflexivity.
Qed.

Lemma decoderune_3 b0 b1 b2 rest :
  0xE0 <= byteval b0 < 0xF0 -> 0x80 <= byteval b1 <= 0xBF -> 0x80 <= byteval b2 <= 0xBF ->
  0x7FF < dec3 (byteval b0) (byteval b1) (byteval b2) ->
  ~ (0xD800 <= dec3 (byteval b0) (byteval b1) (byteval b2) <= 0xDFFF) ->
  decoderune (b0 :: b1 :: b2 :: rest) =
    (dec3 (byteval b0) (byteval b1) (byteval b2), 3%nat).
Proof.
  intros H0 H1 H2 Hr Hs. unfold decoderune. cbv zeta. rewrite lor_dec3.
  unfold_consts. decide_tests; reflexivity.
Qed.

Lemma decoderune_4 b0 b1 b2 b3 rest :
  0xF0 <= byteval b0 < 0xF8 -> 0x80 <= byteval b1 <= 0xBF ->
  0x80 <= byteval b2 <= 0xBF -> 0x80 <= byteval b3 <= 0xBF ->
  0xFFFF < dec4 (byteval b0) (byteval b1) (byteval b2) (byteval b3) <= 0x10FFFF ->
  decoderune (b0 :: b1 :: b2 :: b3 :: rest) =
    (dec4 (byteval b0) (byteval b1) (byteval b2) (byteval b3), 4%nat).
Proof.
  intros H0 H1 H2 H3 Hr. unfold decoderune. cbv zeta. rewrite lor_dec4.
  unfold_consts. decide_tests; reflexivity.
Qed.

(** ** Ranging over a string *)

Lemma ValidRune_spec r :
  ValidRune r = true <-> 0 <= r <= 0x10FFFF /\ ~ (0xD800 <= r <= 0xDFFF).
Proof.
  unfold ValidRune. unfold_consts.
  destruct (Z.leb_spec 0 r), (Z.leb_spec r 1114111), (Z.leb_spec 55296 r),
    (Z.leb_spec r 57343); cbn; split; intros; try discriminate; try lia; auto.
Qed.

Lemma range_runes_skip k s : range_runes k s = range_runes 0 (drop k s).
Proof.
  revert s. induction k as [|k IH]; intros s.
  - rewrite drop_0. reflexivity.
  - destruct s as [|b s]; [reflexivity|]. cbn [range_runes drop]. apply IH.
Qed.

Lemma range_runes_ascii b s :
  byteval b < 0x80 -> range_runes 0 (b :: s) = byteval b :: range_runes 0 s.
Proof.
  intros Hb. cbn [range_runes]. unfold runeSelf.
  destruct (Z.ltb_spec (byteval b) 128); [reflexivity | lia].
Qed.

Lemma range_runes_multi b s r w :
  0x80 <= byteval b -> decoderune (b :: s) = (r, w) ->
  range_runes 0 (b :: s) = r :: range_runes 0 (drop (Nat.pred w) s).
Proof.
  intros Hb Hd. cbn [range_runes]. unfold runeSelf.
  destruct (Z.ltb_spec (byteval b) 128); [lia|].
  rewrite Hd. rewrite range_runes_skip. reflexivity.
Qed.

(** Decoding the encoding of a valid rune gives the rune back. *)
Lemma decode_encoderune r rest :
  ValidRune r = true ->
  range_runes 0 (encoderune r ++ rest) = r :: range_runes 0 rest.
Proof.
  intros Hv. apply ValidRune_spec in Hv. destruct Hv as [Hr Hs].
  destruct (Z_le_gt_dec r 0x7F) as [H1|H1];
    [|destruct (Z_le_gt_dec r 0x7FF) as [H2|H2];
      [|destruct (Z_le_gt_dec r 0xFFFF) as [H3|H3]]].
  - rewrite encoderune_1 by lia. cbn [app].
    rewrite range_runes_ascii; rewrite byteval_tobyte, Z.mod_small by lia; [reflexivity | lia].
  - rewrite encoderune_2 by lia. cbn [app].
    assert (E0 : byteval (tobyte (192 + r / 64)) = 192 + r / 64)
      by (rewrite byteval_tobyte; divmod).
    assert (E1 : byteval (tobyte (128 + r mod 64)) = 128 + r mod 64)
      by (rewrite byteval_tobyte; divmod).
    assert (Er : dec2 (192 + r / 64) (128 + r mod 64) = r) by (unfold dec2; divmod).
    rewrite (range_runes_multi _ _ r 2).
    + reflexivity.
    + rewrite E0. divmod.
    + rewrite decoderune_2; rewrite ?E0, ?E1, ?Er; try reflexivity; try divmod.
  - rewrite encoderune_3 by lia. cbn [app].
    assert (E0 : byteval (tobyte (224 + r / 4096)) = 224 + r / 4096)
      by (rewrite byteval_tobyte; divmod).
    assert (E1 : byteval (tobyte (128 + r / 64 mod 64)) = 128 + r / 64 mod 64)
      by (rewrite byteval_tobyte; divmod).
    assert (E2 : byteval (tobyte (128 + r mod 64)) = 128 + r mod 64)
      by (rewrite byteval_tobyte; divmod).
    assert (Er : dec3 (224 + r / 4096) (128 + r / 64 mod 64) (128 + r mod 64) = r)
      by (unfold dec3; divmod).
    rewrite (range_runes_multi _ _ r 3).
    + reflexivity.
    + rewrite E0. divmod.
    + rewrite decoderune_3; rewrite ?E0, ?E1, ?E2, ?Er; try reflexivity; try divmod.
  - rewrite encoderune_4 by lia. cbn [app].
    assert (E0 : byteval (tobyte (240 + r / 262144)) = 240 + r / 262144)
      by (rewrite byteval_tobyte; divmod).
    assert (E1 : byteval (tobyte (128 + r / 4096 mod 64)) = 128 + r / 4096 mod 64)
      by (rewrite byteval_tobyte; divmod).
    assert (E2 : byteval (tobyte (128 + r / 64 mod 64)) = 128 + r / 64 mod 64)
      by (rewrite byteval_tobyte; divmod).
    assert (E3 : byteval (tobyte (128 + r mod 64)) = 128 + r mod 64)
      by (rewrite byteval_tobyte; divmod).
    assert (Er : dec4 (240 + r / 262144) (128 + r / 4096 mod 64)
                      (128 + r / 64 mod 64) (128 + r mod 64) = r)
      by (unfold dec4; divmod).
    rewrite (range_runes_multi _ _ r 4).
    + reflexivity.
    + rewrite E0. divmod.
    + rewrite decoderune_4; rewrite ?E0, ?E1, ?E2, ?E3, ?Er; try reflexivity; try divmod.
Qed.

(** Induction along the runes of a string. *)
Lemma range_runes_ind (P : gostring -> list rune -> Prop) :
  P [] [] ->
  (forall b s, byteval b < 0x80 ->
     P s (range_runes 0 s) -> P (b :: s) (byteval b :: range_runes 0 s)) ->
  (forall b s r w, 0x80 <= byteval b -> decoderune (b :: s) = (r, w) ->
     P (drop (Nat.pred w) s) (range_runes 0 (drop (Nat.pred w) s)) ->
     P (b :: s) (r :: range_runes 0 (drop (Nat.pred w) s))) ->
  forall s, P s (range_runes 0 s).
Proof.
  intros Hnil Hascii Hmulti s.
  remember (length s) as n eqn:Hn.
  revert s Hn. induction n as [n IH] using lt_wf_ind. intros s Hn.
  destruct s as [|b s]; [exact Hnil|].
  destruct (Z_lt_le_dec (byteval b) 0x80) as [Hb|Hb].
  - rewrite range_runes_ascii by exact Hb.
    apply Hascii; [exact Hb|]. apply (IH (length s)); [cbn in Hn; lia | reflexivity].
  - destruct (decoderune (b :: s)) as [r w] eqn:Hd.
    rewrite (range_runes_multi b s r w) by assumption.
    apply Hmulti; [exact Hb | exact Hd |].
    apply (IH (length (drop (Nat.pred w) s))); [|reflexivity].
    rewrite length_drop. cbn in Hn. lia.
Qed.

(** ** [[]rune(s)] and [string(r)] *)

(** The decoder only produces valid runes. *)
Lemma decoded_ValidRune s r w : decoded s r w -> ValidRune r = true.
Proof.
  intros H. apply ValidRune_spec. destruct H.
  - unfold runeError. lia.
  - assert (dec2 (byteval b0) (byteval b1) <= 0x7FF) by (unfold dec2; divmod). lia.
  - assert (0 <= dec3 (byteval b0) (byteval b1) (byteval b2)) by (unfold dec3; divmod).
    assert (dec3 (byteval b0) (byteval b1) (byteval b2) <= 0xFFFF) by (unfold dec3; divmod).
    lia.
  - lia.
Qed.

Lemma stringtoslicerune_valid s :
  Forall (fun r => ValidRune r = true) (stringtoslicerune s).
Proof.
  unfold stringtoslicerune. apply range_runes_ind.
  - constructor.
  - intros b s' Hb IH. constructor; [|exact IH].
    apply ValidRune_spec. pose proof (byteval_range b). lia.
  - intros b s' r w Hb Hd IH. constructor; [|exact IH].
    pose proof (decoderune_decoded (b :: s')) as H. rewrite Hd in H.
    exact (decoded_ValidRune _ _ _ H).
Qed.

Lemma slicerunetostring_cons r a :
  slicerunetostring (r :: a) = encoderune r ++ slicerunetostring a.
Proof. reflexivity. Qed.

Lemma stringtoslicerune_slicerunetostring a :
  Forall (fun r => ValidRune r = true) a ->
  stringtoslicerune (slicerunetostring a) = a.
Proof.
  induction 1 as [|r a Hr _ IH]; [reflexivity|].
  rewrite slicerunetostring_cons. unfold stringtoslicerune in *.
  rewrite decode_encoderune by exact Hr. rewrite IH. reflexivity.
Qed.

(** Encoding the rune of a well-formed sequence gives the sequence back. *)
Lemma tobyte_eq x b : x = byteval b -> tobyte x = b.
Proof. intros ->. apply tobyte_byteval. Qed.

Lemma encoderune_decoded s r w :
  decoded s r w -> (1 < w)%nat -> encoderune r = take w s.
Proof.
  intros H Hw. destruct H; [lia | | | ].
  - assert (dec2 (byteval b0) (byteval b1) <= 0x7FF) by (unfold dec2; divmod).
    rewrite encoderune_2 by lia. cbn [take]. unfold dec2.
    repeat (apply (f_equal2 (@cons byte)); [apply tobyte_eq; divmod | ]).
    reflexivity.
  - assert (dec3 (byteval b0) (byteval b1) (byteval b2) <= 0xFFFF) by (unfold dec3; divmod).
    rewrite encoderune_3 by lia. cbn [take]. unfold dec3.
    repeat (apply (f_equal2 (@cons byte)); [apply tobyte_eq; divmod | ]).
    reflexivity.
  - rewrite encoderune_4 by lia. cbn [take]. unfold dec4.
    repeat (apply (f_equal2 (@cons byte)); [apply tobyte_eq; divmod | ]).
    reflexivity.
Qed.

Lemma valid_from_skip k s : valid_from k s = valid_from 0 (drop k s).
Proof.
  revert s. induction k as [|k IH]; intros s.
  - rewrite drop_0. reflexivity.
  - destruct s as [|b s]; [reflexivity|]. cbn [valid_from drop]. apply IH.
Qed.

Lemma slicerunetostring_stringtoslicerune s :
  ValidString s = true -> slicerunetostring (stringtoslicerune s) = s.
Proof.
  unfold ValidString, stringtoslicerune. apply range_runes_ind.
  - reflexivity.
  - intros b s' Hb IH Hv. cbn [valid_from] in Hv. unfold runeSelf in Hv.
    destruct (Z.ltb_spec (byteval b) 128); [|lia].
    rewrite slicerunetostring_cons, IH by exact Hv.
    pose proof (byteval_range b).
    rewrite encoderune_1 by lia. rewrite tobyte_byteval. reflexivity.
  - intros b s' r w Hb Hd IH Hv. cbn [valid_from] in Hv. unfold runeSelf in Hv.
    destruct (Z.ltb_spec (byteval b) 128); [lia|].
    rewrite Hd in Hv. apply andb_true_iff in Hv. destruct Hv as [Hw Hv].
    apply Nat.ltb_lt in Hw. rewrite valid_from_skip in Hv.
    rewrite slicerunetostring_cons, IH by exact Hv.
    pose proof (decoderune_decoded (b :: s')) as H'. rewrite Hd in H'. cbn [fst snd] in H'.
    rewrite (encoderune_decoded _ _ _ H' Hw).
    destruct w as [|w]; [lia|]. cbn [Nat.pred].
    change (drop w s') with (drop (S w) (b :: s')). apply take_drop.
Qed.

(** ** Indexing in the middle of a slice *)

Lemma index_middle {A} (l1 l2 : list A) (x : A) (i : Z) :
  i = len l1 -> index (l1 ++ x :: l2) i = Return x.
Proof.
  intros ->. unfold index, len. rewrite length_app. cbn [length].
  destruct (Z.ltb_spec (Z.of_nat (length l1)) 0); [lia|].
  destruct (Z.leb_spec (Z.of_nat (length l1 + S (length l2))) (Z.of_nat (length l1))); [lia|].
  cbn [orb]. rewrite Nat2Z.id. rewrite list_lookup_middle by reflexivity. reflexivity.
Qed.

Lemma store_middle {A} (l1 l2 : list A) (x y : A) (i : Z) :
  i = len l1 -> store (l1 ++ x :: l2) i y = Return (l1 ++ y :: l2).
Proof.
  intros ->. unfold store, len. rewrite length_app. cbn [length].
  destruct (Z.ltb_spec (Z.of_nat (length l1)) 0); [lia|].
  destruct (Z.leb_spec (Z.of_nat (length l1 + S (length l2))) (Z.of_nat (length l1))); [lia|].
  cbn [orb]. rewrite Nat2Z.id.
  replace (length l1) with (length l1 + 0)%nat at 1 by lia.
  rewrite insert_app_r. reflexivity.
Qed.

(** ** The loop of Reverse

    With [pre] and [post] of the same length already swapped, the loop
    reverses the middle part and leaves the rest. *)

Lemma reverse_loop_exit fuel i j (r : list rune) :
  Z.quot (len r) 2 <= i -> reverse_loop fuel i j r = Return r.
Proof.
  intros Hi. destruct fuel; cbn [reverse_loop];
    destruct (Z.ltb_spec i (Z.quot (len r) 2)); (lia || reflexivity).
Qed.

Lemma reverse_loop_middle fuel : forall (m pre post : list rune),
  length pre = length post ->
  (length m <= 2 * fuel + 1)%nat ->
  reverse_loop fuel (len pre) (len pre + len m - 1) (pre ++ m ++ post)
  = Return (pre ++ reverse m ++ post).
Proof.
  induction fuel as [|fuel IH]; intros m pre post Hlen Hfuel.
  - assert (Hm : (length m < 2)%nat) by lia.
    rewrite reverse_loop_exit.
    + destruct m as [|x [|y m]]; [reflexivity | reflexivity | cbn in Hm; lia].
    + unfold len. rewrite !length_app. rewrite Z.quot_div_nonneg by lia. divmod.
  - destruct m as [|x m]; [|destruct m as [|y m _] using rev_ind].
    + rewrite reverse_loop_exit; [reflexivity|].
      unfold len. rewrite !length_app. cbn [length]. rewrite Z.quot_div_nonneg by lia.
      divmod.
    + rewrite reverse_loop_exit; [reflexivity|].
      unfold len. rewrite !length_app. cbn [length]. rewrite Z.quot_div_nonneg by lia.
      divmod.
    + cbn [reverse_loop].
      assert (Hcond : len pre < Z.quot (len (pre ++ (x :: m ++ [y]) ++ post)) 2).
      { unfold len. rewrite !length_app. cbn [length]. rewrite length_app. cbn [length].
        rewrite Z.quot_div_nonneg by lia. divmod. }
      destruct (Z.ltb_spec (len pre) (Z.quot (len (pre ++ (x :: m ++ [y]) ++ post)) 2));
        [|lia].
      assert (E1 : pre ++ (x :: m ++ [y]) ++ post = (pre ++ x :: m) ++ y :: post).
      { cbn [app]. rewrite <- !app_assoc. reflexivity. }
      assert (E2 : pre ++ (x :: m ++ [y]) ++ post = pre ++ x :: (m ++ y :: post)).
      { cbn [app]. rewrite <- !app_assoc. reflexivity. }
      assert (Hj : len pre + len (x :: m ++ [y]) - 1 = len (pre ++ x :: m)).
      { unfold len. rewrite !length_app. cbn [length]. rewrite length_app. cbn [length]. lia. }
      rewrite Hj.
      rewrite E1 at 1. rewrite index_middle by reflexivity. cbn [mbind outcome_bind].
      rewrite E2 at 1. rewrite index_middle by reflexivity. cbn [mbind outcome_bind].
      rewrite E2. rewrite store_middle by reflexivity. cbn [mbind outcome_bind].
      replace (pre ++ y :: m ++ y :: post) with ((pre ++ y :: m) ++ y :: post)
        by (rewrite <- app_assoc; reflexivity).
      rewrite store_middle
        by (unfold len; rewrite !length_app; cbn [length]; reflexivity).
      cbn [mbind outcome_bind].
      replace ((pre ++ y :: m) ++ x :: post) with ((pre ++ [y]) ++ m ++ (x :: post))
        by (rewrite <- !app_assoc; reflexivity).
      replace (len pre + 1) with (len (pre ++ [y]))
        by (unfold len; rewrite length_app; cbn [length]; lia).
      replace (len (pre ++ x :: m) - 1) with (len (pre ++ [y]) + len m - 1)
        by (unfold len; rewrite !length_app; cbn [length]; lia).
      rewrite IH.
      * rewrite reverse_cons, reverse_snoc. cbn [app]. rewrite <- !app_assoc. reflexivity.
      * rewrite length_app. cbn [length]. lia.
      * cbn [length] in Hfuel. rewrite length_app in Hfuel. cbn [length] in Hfuel.
        lia.
Qed.

Lemma reverse_loop_reverse (r : list rune) :
  reverse_loop (length r) 0 (len r - 1) r = Return (reverse r).
Proof.
  pose proof (reverse_loop_middle (length r) r [] []) as H.
  cbn [app length] in H. rewrite !app_nil_r in H.
  apply H; [reflexivity | lia].
Qed.

(** ** Strings *)

Lemma streq_empty s :
  streq s emptyString = match s with [] => true | _ :: _ => false end.
Proof. destruct s; reflexivity. Qed.

Lemma encoderune_nonempty r : encoderune r <> [].
Proof.
  unfold encoderune. cbv zeta.
  repeat match goal with |- context [if ?c then _ else _] => destruct c end;
    discriminate.
Qed.

Lemma slicerunetostring_nonempty a : a <> [] -> slicerunetostring a <> [].
Proof.
  destruct a as [|r a]; [congruence|]. intros _.
  rewrite slicerunetostring_cons.
  pose proof (encoderune_nonempty r). destruct (encoderune r); [congruence | discriminate].
Qed.

Lemma stringtoslicerune_nonempty s : s <> [] -> stringtoslicerune s <> [].
Proof.
  destruct s as [|b s]; [congruence|]. intros _.
  unfold stringtoslicerune. cbn [range_runes].
  destruct (byteval b <? runeSelf); [discriminate|].
  destruct (decoderune (b :: s)). discriminate.
Qed.

Lemma isASCII_cons b s :
  isASCII (b :: s) = true <-> byteval b < 0x80 /\ isASCII s = true.
Proof.
  unfold isASCII. cbn [forallb]. unfold runeSelf.
  rewrite andb_true_iff, Z.ltb_lt. reflexivity.
Qed.

Lemma stringtoslicerune_ascii s :
  isASCII s = true -> stringtoslicerune s = map byteval s.
Proof.
  unfold stringtoslicerune.
  induction s as [|b s IH]; [reflexivity|]. intros H.
  apply isASCII_cons in H. destruct H as [Hb Hs].
  rewrite range_runes_ascii by exact Hb. rewrite IH by exact Hs. reflexivity.
Qed.

Lemma slicerunetostring_ascii s :
  isASCII s = true -> slicerunetostring (map byteval s) = s.
Proof.
  induction s as [|b s IH]; [reflexivity|]. intros H.
  apply isASCII_cons in H. destruct H as [Hb Hs].
  cbn [map]. rewrite slicerunetostring_cons, IH by exact Hs.
  pose proof (byteval_range b).
  rewrite encoderune_1 by lia. rewrite tobyte_byteval. reflexivity.
Qed.

Lemma isASCII_take n s : isASCII s = true -> isASCII (take n s) = true.
Proof.
  revert n. induction s as [|b s IH]; intros n H.
  - destruct n; reflexivity.
  - destruct n as [|n]; [reflexivity|].
    apply isASCII_cons in H. destruct H as [Hb Hs].
    cbn [take]. apply isASCII_cons. split; [exact Hb | apply IH; exact Hs].
Qed.

Lemma first_chars_ascii l s :
  isASCII s = true -> first_chars l s = take (Z.to_nat l) s.
Proof.
  intros H. unfold first_chars.
  rewrite stringtoslicerune_ascii by exact H.
  rewrite <- fmap_take. apply slicerunetostring_ascii, isASCII_take, H.
Qed.

(** ** The operations *)

Lemma Reverse_nonempty s :
  s <> [] ->
  stringService.Reverse s
  = Return (slicerunetostring (reverse (stringtoslicerune s)), None).
Proof.
  intros Hs. unfold stringService.Reverse. rewrite streq_empty.
  destruct s as [|b s]; [congruence|]. cbv zeta.
  rewrite reverse_loop_reverse. reflexivity.
Qed.

Lemma Truncate_in_range s l :
  s <> [] -> 0 <= l <= len s ->
  stringService.Truncate s l = Return (take (Z.to_nat l) s, None).
Proof.
  intros Hs Hl. unfold stringService.Truncate. rewrite streq_empty.
  destruct s as [|b s]; [congruence|]. unfold slice_to.
  destruct (Z.ltb_spec l 0); [lia|].
  destruct (Z.ltb_spec (len (b :: s)) l); [lia|]. reflexivity.
Qed.

(** Reversing twice re-encodes the runes of the string. *)
Lemma Reverse_Reverse s :
  s <> [] ->
  exists v, stringService.Reverse s = Return (v, None)
    /\ stringService.Reverse v
       = Return (slicerunetostring (stringtoslicerune s), None).
Proof.
  intros Hs. eexists. split; [apply Reverse_nonempty, Hs|].
  rewrite Reverse_nonempty.
  - rewrite stringtoslicerune_slicerunetostring
      by (apply Forall_reverse, stringtoslicerune_valid).
    rewrite reverse_involutive. reflexivity.
  - apply slicerunetostring_nonempty. intros H.
    apply (f_equal reverse) in H. rewrite reverse_involutive in H.
    exact (stringtoslicerune_nonempty s Hs H).
Qed.

(** ** Upper case *)

Lemma isLower_upperByte c : isLower (byteval (upperByte c)) = false.
Proof.
  unfold upperByte. destruct (isLower (byteval c)) eqn:Hc; [|exact Hc].
  unfold isLower in *. bool_to_prop.
  rewrite byteval_tobyte. rewrite Z.mod_small by lia.
  destruct (Z.leb_spec 97 (byteval c - (97 - 65))); [lia | reflexivity].
Qed.

Lemma upperByte_idem c : upperByte (upperByte c) = upperByte c.
Proof.
  unfold upperByte at 1. rewrite isLower_upperByte. reflexivity.
Qed.

Lemma upperByte_ascii c : byteval c < 0x80 -> byteval (upperByte c) < 0x80.
Proof.
  intros Hc. unfold upperByte. destruct (isLower (byteval c)) eqn:Hl; [|exact Hc].
  unfold isLower in Hl. bool_to_prop.
  rewrite byteval_tobyte. rewrite Z.mod_small by lia. lia.
Qed.

Lemma isASCII_map_upperByte s : isASCII s = true -> isASCII (map upperByte s) = true.
Proof.
  induction s as [|b s IH]; [reflexivity|]. intros H.
  apply isASCII_cons in H. destruct H as [Hb Hs]. cbn [map].
  apply isASCII_cons. split; [apply upperByte_ascii, Hb | apply IH, Hs].
Qed.

Lemma ToUpper_ascii up s : isASCII s = true -> ToUpper up s = map upperByte s.
Proof. intros H. unfold ToUpper. rewrite H. reflexivity. Qed.

Lemma Uppercase_nonempty up s :
  s <> [] -> stringService.Uppercase up s = Return (ToUpper up s, None).
Proof.
  intros Hs. unfold stringService.Uppercase. rewrite streq_empty.
  destruct s; [congruence | reflexivity].
Qed.

(** ** The endpoints on the paths that cannot panic *)

(** The uppercase, count and reverse endpoints return a response and a nil
    error for every request of their type; so does the truncate endpoint
    when the string is empty or the length lies within the string. *)
Lemma endpoints_return up (s : gostring) (l : Z) :
  makeUppercaseEndpoint (stringService.svc up) (of_stringRequest {| sreq_S := s |})
  = Return (of_uppercaseResponse
              match s with
              | [] => {| uresp_V := emptyString; uresp_Err := lit "empty string" |}
              | _ :: _ => {| uresp_V := ToUpper up s; uresp_Err := emptyString |}
              end, None)
  /\ makeCountEndpoint (stringService.svc up) (of_stringRequest {| sreq_S := s |})
     = Return (of_countResponse {| cresp_V := len s |}, None)
  /\ makeReverseEndpoint (stringService.svc up) (of_stringRequest {| sreq_S := s |})
     = Return (of_uppercaseResponse
                 match s with
                 | [] => {| uresp_V := emptyString; uresp_Err := lit "empty string" |}
                 | _ :: _ =>
                   {| uresp_V := slicerunetostring (reverse (stringtoslicerune s));
                      uresp_Err := emptyString |}
                 end, None)
  /\ (s = [] \/ 0 <= l <= len s ->
      makeTruncateEndpoint (stringService.svc up)
        (of_truncateRequest {| treq_S := s; treq_L := l |})
      = Return (of_truncateResponse
                  match s with
                  | [] => {| tresp_V := emptyString; tresp_Err := lit "empty string" |}
                  | _ :: _ => {| tresp_V := take (Z.to_nat l) s; tresp_Err := emptyString |}
                  end, None)).
Proof.
  destruct s as [|b s]; repeat split; try reflexivity.
  - unfold makeReverseEndpoint.
    cbn [assert_stringRequest mbind outcome_bind sreq_S].
    change (@Reverse (stringService.svc up)) with stringService.Reverse.
    rewrite Reverse_nonempty by discriminate. reflexivity.
  - intros [H|H]; [discriminate|]. unfold makeTruncateEndpoint.
    cbn [assert_truncateRequest mbind outcome_bind treq_S treq_L].
    change (@Truncate (stringService.svc up)) with stringService.Truncate.
    rewrite Truncate_in_range by (discriminate || exact H). reflexivity.
Qed.

(** The examples of the interface description. *)
Lemma hello_examples up :
  makeUppercaseEndpoint (stringService.svc up) (of_stringRequest {| sreq_S := lit "hello" |})
  = Return (of_uppercaseResponse {| uresp_V := lit "HELLO"; uresp_Err := emptyString |}, None)
  /\ makeCountEndpoint (stringService.svc up) (of_stringRequest {| sreq_S := lit "hello" |})
     = Return (of_countResponse {| cresp_V := 5 |}, None)
  /\ makeReverseEndpoint (stringService.svc up) (of_stringRequest {| sreq_S := lit "hello" |})
     = Return (of_uppercaseResponse {| uresp_V := lit "olleh"; uresp_Err := emptyString |}, None)
  /\ makeTruncateEndpoint (stringService.svc up)
       (of_truncateRequest {| treq_S := lit "hello"; treq_L := 3 |})
     = Return (of_truncateResponse {| tresp_V := lit "hel"; tresp_Err := emptyString |}, None).
Proof. repeat split; vm_compute; reflexivity. Qed.

(** The truncate endpoint panics whenever the length is outside a
    non-empty string. *)
Lemma makeTruncateEndpoint_out_of_range up (s : gostring) (l : Z) :
  s <> [] -> l < 0 \/ len s < l ->
  makeTruncateEndpoint (stringService.svc up)
    (of_truncateRequest {| treq_S := s; treq_L := l |})
  = Panic SliceBoundsOutOfRange.
Proof.
  intros Hs Hl. unfold makeTruncateEndpoint.
  cbn [assert_truncateRequest mbind outcome_bind treq_S treq_L].
  change (@Truncate (stringService.svc up)) with stringService.Truncate.
  unfold stringService.Truncate. rewrite streq_empty.
  destruct s as [|b s]; [congruence|]. unfold slice_to.
  destruct (Z.ltb_spec l 0); [reflexivity|].
  destruct (Z.ltb_spec (len (b :: s)) l); [reflexivity | lia].
Qed.

(** The bound of the slice expression is the number of bytes: a length
    above the number of characters, but within the bytes, is accepted. *)
Lemma Truncate_beyond_rune_count :
  RuneCount (bytes [0xC3; 0xA9]) = 1
  /\ stringService.Truncate (bytes [0xC3; 0xA9]) 2 = Return (bytes [0xC3; 0xA9], None).
Proof. split; reflexivity. Qed.

(** * The specification, statement by statement *)

(** C1, as amended.  For every string [s], [Count s] returns the number of
    bytes of [s], which is the number of characters (code points) when
    [s] is ASCII; [Count] of the empty string returns 0, and [Count] never fails. *)
Theorem Count_counts_bytes (s : gostring) :
  stringService.Count s = Return (len s)
  /\ (isASCII s = true -> stringService.Count s = Return (RuneCount s))
  /\ stringService.Count emptyString = Return 0.
Proof.
  repeat split. intros H. unfold stringService.Count, RuneCount, len.
  rewrite stringtoslicerune_ascii by exact H. rewrite length_map. reflexivity.
Qed.

Lemma Count_counts_bytes_witness :
  isASCII (lit "hello") = true
  /\ stringService.Count (lit "hello") = Return (RuneCount (lit "hello")).
Proof.
  split; [reflexivity | apply (Count_counts_bytes (lit "hello")); reflexivity].
Defined.

(** C1 as stated fails on the string "é": it is one character, encoded in
    the two bytes C3 A9, and [Count] returns 2. *)
Lemma Count_code_points_counterexample :
  stringService.Count (bytes [0xC3; 0xA9]) = Return 2
  /\ RuneCount (bytes [0xC3; 0xA9]) = 1
  /\ stringService.Count (bytes [0xC3; 0xA9]) <> Return (RuneCount (bytes [0xC3; 0xA9])).
Proof. repeat split; vm_compute; congruence. Qed.

(** C2.  For every non-empty string [s] and every [l] that is negative or
    greater than [len s], [Truncate s l] returns no value: the slice
    expression panics with a bounds error. *)
Theorem Truncate_out_of_range_panics (s : gostring) (l : Z) :
  s <> [] -> l < 0 \/ len s < l ->
  stringService.Truncate s l = Panic SliceBoundsOutOfRange.
Proof.
  intros Hs Hl. unfold stringService.Truncate. rewrite streq_empty.
  destruct s as [|b s]; [congruence|]. unfold slice_to.
  destruct (Z.ltb_spec l 0); [reflexivity|].
  destruct (Z.ltb_spec (len (b :: s)) l); [reflexivity | lia].
Qed.

Lemma Truncate_out_of_range_panics_witness :
  lit "hello" <> [] /\ (10 < 0 \/ len (lit "hello") < 10)
  /\ stringService.Truncate (lit "hello") 10 = Panic SliceBoundsOutOfRange.
Proof.
  assert (H1 : lit "hello" <> []) by discriminate.
  assert (H2 : 10 < 0 \/ len (lit "hello") < 10) by (right; reflexivity).
  exact (conj H1 (conj H2 (Truncate_out_of_range_panics (lit "hello") 10 H1 H2))).
Defined.

(** C3, as amended.  For every non-empty string [s] and every [l] with
    [0 <= l <= len s], [Truncate s l] returns the first [l] bytes of [s];
    they are the first [l] characters of [s] when [s] is ASCII. *)
Theorem Truncate_first_bytes (s : gostring) (l : Z) :
  s <> [] -> 0 <= l <= len s ->
  stringService.Truncate s l = Return (take (Z.to_nat l) s, None)
  /\ (isASCII s = true -> take (Z.to_nat l) s = first_chars l s).
Proof.
  intros Hs Hl. split; [apply Truncate_in_range; assumption|].
  intros H. symmetry. apply first_chars_ascii, H.
Qed.

Lemma Truncate_first_bytes_witness :
  lit "hello" <> [] /\ 0 <= 3 <= len (lit "hello")
  /\ stringService.Truncate (lit "hello") 3 = Return (lit "hel", None).
Proof.
  assert (H1 : lit "hello" <> []) by discriminate.
  assert (H2 : 0 <= 3 <= len (lit "hello")) by (vm_compute; split; discriminate).
  exact (conj H1 (conj H2 (proj1 (Truncate_first_bytes (lit "hello") 3 H1 H2)))).
Defined.

(** C3 as stated fails on the string "é" with [l = 1]: the string has one
    character, and [Truncate] returns its first byte alone. *)
Lemma Truncate_first_chars_counterexample :
  bytes [0xC3; 0xA9] <> []
  /\ 0 <= 1 <= RuneCount (bytes [0xC3; 0xA9])
  /\ first_chars 1 (bytes [0xC3; 0xA9]) = bytes [0xC3; 0xA9]
  /\ stringService.Truncate (bytes [0xC3; 0xA9]) 1 = Return (bytes [0xC3], None)
  /\ stringService.Truncate (bytes [0xC3; 0xA9]) 1
     <> Return (first_chars 1 (bytes [0xC3; 0xA9]), None).
Proof. repeat split; vm_compute; congruence. Qed.

(** C4, as amended.  For every non-empty string [s] that is valid UTF-8,
    [Reverse] succeeds on [s] and on its result, and reversing twice gives
    [s] back. *)
Theorem Reverse_involutive_valid (s : gostring) :
  s <> [] -> ValidString s = true ->
  exists v, stringService.Reverse s = Return (v, None)
    /\ stringService.Reverse v = Return (s, None).
Proof.
  intros Hs Hv. destruct (Reverse_Reverse s Hs) as (v & H1 & H2).
  exists v. split; [exact H1|].
  rewrite H2, slicerunetostring_stringtoslicerune by exact Hv. reflexivity.
Qed.

Lemma Reverse_involutive_valid_witness :
  bytes [0xC3; 0xA9; 0x41] <> [] /\ ValidString (bytes [0xC3; 0xA9; 0x41]) = true
  /\ exists v, stringService.Reverse (bytes [0xC3; 0xA9; 0x41]) = Return (v, None)
       /\ stringService.Reverse v = Return (bytes [0xC3; 0xA9; 0x41], None).
Proof.
  assert (H1 : bytes [0xC3; 0xA9; 0x41] <> []) by discriminate.
  assert (H2 : ValidString (bytes [0xC3; 0xA9; 0x41]) = true) by reflexivity.
  exact (conj H1 (conj H2 (Reverse_involutive_valid _ H1 H2))).
Defined.

(** C4 as stated fails on the one-byte string FF, which is not valid
    UTF-8: its only rune decodes to U+FFFD, so [Reverse] returns the three
    bytes EF BF BD, and reversing those returns them again. *)
Lemma Reverse_involutive_counterexample :
  bytes [0xFF] <> []
  /\ stringService.Reverse (bytes [0xFF]) = Return (bytes [0xEF; 0xBF; 0xBD], None)
  /\ stringService.Reverse (bytes [0xEF; 0xBF; 0xBD])
     = Return (bytes [0xEF; 0xBF; 0xBD], None)
  /\ stringService.Reverse (bytes [0xEF; 0xBF; 0xBD]) <> Return (bytes [0xFF], None).
Proof. repeat split; vm_compute; congruence. Qed.

(** C5.  On the empty string [Uppercase], [Reverse] and [Truncate], the
    last for every [l], fail with the error [ErrEmpty], whose message is
    "empty string"; the response of each endpoint then has the empty
    string as its value and "empty string" as its error. *)
Theorem empty_string_is_business_error up (l : Z) :
  stringService.Uppercase up emptyString = Return (emptyString, Some ErrEmpty)
  /\ stringService.Reverse emptyString = Return (emptyString, Some ErrEmpty)
  /\ stringService.Truncate emptyString l = Return (emptyString, Some ErrEmpty)
  /\ Error ErrEmpty = lit "empty string"
  /\ makeUppercaseEndpoint (stringService.svc up) (of_stringRequest {| sreq_S := emptyString |})
     = Return (of_uppercaseResponse
                 {| uresp_V := emptyString; uresp_Err := lit "empty string" |}, None)
  /\ makeReverseEndpoint (stringService.svc up) (of_stringRequest {| sreq_S := emptyString |})
     = Return (of_uppercaseResponse
                 {| uresp_V := emptyString; uresp_Err := lit "empty string" |}, None)
  /\ makeTruncateEndpoint (stringService.svc up)
       (of_truncateRequest {| treq_S := emptyString; treq_L := l |})
     = Return (of_truncateResponse
                 {| tresp_V := emptyString; tresp_Err := lit "empty string" |}, None).
Proof. repeat split; reflexivity. Qed.

(** C6.  For every non-empty string [s], [Truncate s (len s)] returns [s]
    and [Truncate s 0] returns the empty string, both without an error. *)
Theorem Truncate_full_and_zero (s : gostring) :
  s <> [] ->
  stringService.Truncate s (len s) = Return (s, None)
  /\ stringService.Truncate s 0 = Return (emptyString, None).
Proof.
  intros Hs. split.
  - rewrite Truncate_in_range by (assumption || unfold len; lia).
    unfold len. rewrite Nat2Z.id, firstn_all. reflexivity.
  - rewrite Truncate_in_range by (assumption || unfold len; lia). reflexivity.
Qed.

Lemma Truncate_full_and_zero_witness :
  lit "hello" <> []
  /\ stringService.Truncate (lit "hello") (len (lit "hello")) = Return (lit "hello", None)
  /\ stringService.Truncate (lit "hello") 0 = Return (emptyString, None).
Proof.
  assert (H1 : lit "hello" <> []) by discriminate.
  exact (conj H1 (Truncate_full_and_zero (lit "hello") H1)).
Defined.

(** C7.  For every non-empty ASCII string [s], [Uppercase s] succeeds, its
    result has no lower-case letter, and [Uppercase] applied to the result
    returns the result. *)
Theorem Uppercase_ascii up (s : gostring) :
  s <> [] -> isASCII s = true ->
  exists u, stringService.Uppercase up s = Return (u, None)
    /\ no_lowercase u = true
    /\ stringService.Uppercase up u = Return (u, None).
Proof.
  intros Hs Ha. exists (map upperByte s).
  rewrite Uppercase_nonempty, ToUpper_ascii by assumption.
  split; [reflexivity|]. split.
  - unfold no_lowercase. apply forallb_forall. intros c Hc.
    apply in_map_iff in Hc. destruct Hc as (c' & <- & _).
    rewrite isLower_upperByte. reflexivity.
  - rewrite Uppercase_nonempty by (destruct s; [congruence | discriminate]).
    rewrite ToUpper_ascii by (apply isASCII_map_upperByte, Ha).
    rewrite <- list_fmap_compose.
    rewrite (list_fmap_ext (upperByte ∘ upperByte) upperByte s); [reflexivity|].
    intros i c _. apply upperByte_idem.
Qed.

Lemma Uppercase_ascii_witness :
  lit "hello, World" <> [] /\ isASCII (lit "hello, World") = true
  /\ exists u, stringService.Uppercase id (lit "hello, World") = Return (u, None)
       /\ no_lowercase u = true
       /\ stringService.Uppercase id u = Return (u, None).
Proof.
  assert (H1 : lit "hello, World" <> []) by discriminate.
  assert (H2 : isASCII (lit "hello, World") = true) by reflexivity.
  exact (conj H1 (conj H2 (Uppercase_ascii id (lit "hello, World") H1 H2))).
Defined.

(** C8 fails on the truncate endpoint: for the request with the string
    "hello" and the length 10 the endpoint returns no response, it panics
    in the slice expression of [Truncate]. *)
Theorem makeTruncateEndpoint_panics up :
  makeTruncateEndpoint (stringService.svc up)
    (of_truncateRequest {| treq_S := lit "hello"; treq_L := 10 |})
  = Panic SliceBoundsOutOfRange.
Proof. reflexivity. Qed.

(** C9.  For every non-empty string [s] and every [l] with
    [0 <= l <= len s], [Truncate s l] succeeds; its result followed by the
    rest of [s] is [s], and the result has [l] bytes. *)
Theorem Truncate_prefix (s : gostring) (l : Z) :
  s <> [] -> 0 <= l <= len s ->
  exists v, stringService.Truncate s l = Return (v, None)
    /\ v ++ drop (Z.to_nat l) s = s
    /\ len v = l.
Proof.
  intros Hs Hl. exists (take (Z.to_nat l) s).
  split; [apply Truncate_in_range; assumption|]. split.
  - apply take_drop.
  - unfold len in *. rewrite length_take. lia.
Qed.

Lemma Truncate_prefix_witness :
  lit "hello" <> [] /\ 0 <= 3 <= len (lit "hello")
  /\ exists v, stringService.Truncate (lit "hello") 3 = Return (v, None)
       /\ v ++ drop (Z.to_nat 3) (lit "hello") = lit "hello"
       /\ len v = 3.
Proof.
  assert (H1 : lit "hello" <> []) by discriminate.
  assert (H2 : 0 <= 3 <= len (lit "hello")) by (vm_compute; split; discriminate).
  exact (conj H1 (conj H2 (Truncate_prefix (lit "hello") 3 H1 H2))).
Defined.

(** C10.  For all strings [a] and [b], [Count] succeeds on [a], on [b] and
    on their concatenation, and the count of the concatenation is the sum
    of the two counts. *)
Theorem Count_app (a b : gostring) :
  exists na nb,
    stringService.Count a = Return na
    /\ stringService.Count b = Return nb
    /\ stringService.Count (a ++ b) = Return (na + nb).
Proof.
  exists (len a), (len b). repeat split.
  unfold stringService.Count, len. rewrite length_app, Nat2Z.inj_add. reflexivity.
Qed.

(** * Further properties of the service *)

(** ** More on the conversions *)

Lemma decoded_width s r w :
  decoded s r w -> (1 <= w <= 4)%nat /\ (w = 1%nat \/ (w <= length s)%nat).
Proof. destruct 1; cbn [length]; lia. Qed.

Lemma decoderune_width b s r w :
  decoderune (b :: s) = (r, w) -> (1 <= w <= 4)%nat /\ (Nat.pred w <= length s)%nat.
Proof.
  intros Hd. pose proof (decoderune_decoded (b :: s)) as H. rewrite Hd in H.
  apply decoded_width in H. cbn [fst snd length] in H. lia.
Qed.

(** A valid rune above ASCII is encoded in more than one byte, the first
    of them not below [runeSelf], and [decoderune] reads it back. *)
Lemma decoderune_encoderune r rest :
  ValidRune r = true -> 0x80 <= r ->
  exists b s',
    encoderune r = b :: s' /\ 0x80 <= byteval b /\ s' <> []
    /\ decoderune (b :: s' ++ rest) = (r, S (length s')).
Proof.
  intros Hv H1. apply ValidRune_spec in Hv. destruct Hv as [Hr Hs].
  destruct (Z_le_gt_dec r 0x7FF) as [H2|H2];
    [|destruct (Z_le_gt_dec r 0xFFFF) as [H3|H3]].
  - rewrite encoderune_2 by lia. eexists _, _. split; [reflexivity|].
    assert (E0 : byteval (tobyte (192 + r / 64)) = 192 + r / 64)
      by (rewrite byteval_tobyte; divmod).
    assert (E1 : byteval (tobyte (128 + r mod 64)) = 128 + r mod 64)
      by (rewrite byteval_tobyte; divmod).
    assert (Er : dec2 (192 + r / 64) (128 + r mod 64) = r) by (unfold dec2; divmod).
    split; [rewrite E0; divmod|]. split; [discriminate|]. cbn [app length].
    rewrite decoderune_2; rewrite ?E0, ?E1, ?Er; try reflexivity; try divmod.
  - rewrite encoderune_3 by lia. eexists _, _. split; [reflexivity|].
    assert (E0 : byteval (tobyte (224 + r / 4096)) = 224 + r / 4096)
      by (rewrite byteval_tobyte; divmod).
    assert (E1 : byteval (tobyte (128 + r / 64 mod 64)) = 128 + r / 64 mod 64)
      by (rewrite byteval_tobyte; divmod).
    assert (E2 : byteval (tobyte (128 + r mod 64)) = 128 + r mod 64)
      by (rewrite byteval_tobyte; divmod).
    assert (Er : dec3 (224 + r / 4096) (128 + r / 64 mod 64) (128 + r mod 64) = r)
      by (unfold dec3; divmod).
    split; [rewrite E0; divmod|]. split; [discriminate|]. cbn [app length].
    rewrite decoderune_3; rewrite ?E0, ?E1, ?E2, ?Er; try reflexivity; try divmod.
  - rewrite encoderune_4 by lia. eexists _, _. split; [reflexivity|].
    assert (E0 : byteval (tobyte (240 + r / 262144)) = 240 + r / 262144)
      by (rewrite byteval_tobyte; divmod).
    assert (E1 : byteval (tobyte (128 + r / 4096 mod 64)) = 128 + r / 4096 mod 64)
      by (rewrite byteval_tobyte; divmod).
    assert (E2 : byteval (tobyte (128 + r / 64 mod 64)) = 128 + r / 64 mod 64)
      by (rewrite byteval_tobyte; divmod).
    assert (E3 : byteval (tobyte (128 + r mod 64)) = 128 + r mod 64)
      by (rewrite byteval_tobyte; divmod).
    assert (Er : dec4 (240 + r / 262144) (128 + r / 4096 mod 64)
                      (128 + r / 64 mod 64) (128 + r mod 64) = r)
      by (unfold dec4; divmod).
    split; [rewrite E0; divmod|]. split; [discriminate|]. cbn [app length].
    rewrite decoderune_4; rewrite ?E0, ?E1, ?E2, ?E3, ?Er; try reflexivity; try divmod.
Qed.

Lemma valid_from_encoderune r rest :
  ValidRune r = true ->
  valid_from 0 (encoderune r ++ rest) = valid_from 0 rest.
Proof.
  intros Hv. destruct (Z_lt_le_dec r 0x80) as [H|H].
  - pose proof (proj1 (ValidRune_spec r) Hv) as [Hr _].
    rewrite encoderune_1 by lia. cbn [app valid_from]. unfold runeSelf.
    rewrite byteval_tobyte, Z.mod_small by lia.
    destruct (Z.ltb_spec r 128); [reflexivity | lia].
  - destruct (decoderune_encoderune r rest Hv H) as (b & s' & -> & Hb & Hs' & Hd).
    cbn [app valid_from]. unfold runeSelf.
    destruct (Z.ltb_spec (byteval b) 128); [lia|].
    rewrite Hd. cbn [Nat.pred]. rewrite valid_from_skip, drop_app_length.
    destruct s'; [congruence | reflexivity].
Qed.

Lemma ValidString_slicerunetostring a :
  Forall (fun r => ValidRune r = true) a -> ValidString (slicerunetostring a) = true.
Proof.
  unfold ValidString. induction 1 as [|r a Hr _ IH]; [reflexivity|].
  rewrite slicerunetostring_cons, valid_from_encoderune by exact Hr. exact IH.
Qed.

Lemma slicerunetostring_app a b :
  slicerunetostring (a ++ b) = slicerunetostring a ++ slicerunetostring b.
Proof. unfold slicerunetostring. apply flat_map_app. Qed.

Lemma range_runes_encoded a rest :
  Forall (fun r => ValidRune r = true) a ->
  range_runes 0 (slicerunetostring a ++ rest) = a ++ range_runes 0 rest.
Proof.
  induction 1 as [|r a Hr _ IH]; [reflexivity|].
  rewrite slicerunetostring_cons, <- app_assoc, decode_encoderune by exact Hr.
  rewrite IH. reflexivity.
Qed.

Lemma stringtoslicerune_app a b :
  ValidString a = true ->
  stringtoslicerune (a ++ b) = stringtoslicerune a ++ stringtoslicerune b.
Proof.
  intros Ha. rewrite <- (slicerunetostring_stringtoslicerune a Ha) at 1.
  unfold stringtoslicerune at 1.
  rewrite range_runes_encoded by apply stringtoslicerune_valid. reflexivity.
Qed.

Lemma length_slicerunetostring_reverse a :
  length (slicerunetostring (reverse a)) = length (slicerunetostring a).
Proof.
  induction a as [|r a IH]; [reflexivity|].
  rewrite reverse_cons, slicerunetostring_app, !slicerunetostring_cons.
  rewrite !length_app, IH. cbn [slicerunetostring flat_map length]. lia.
Qed.

Lemma ValidString_app a b :
  ValidString a = true -> ValidString b = true -> ValidString (a ++ b) = true.
Proof.
  intros Ha Hb.
  rewrite <- (slicerunetostring_stringtoslicerune a Ha).
  rewrite <- (slicerunetostring_stringtoslicerune b Hb).
  rewrite <- slicerunetostring_app. apply ValidString_slicerunetostring.
  apply Forall_app. split; apply stringtoslicerune_valid.
Qed.

Lemma RuneCount_bounds s : RuneCount s <= len s <= 4 * RuneCount s.
Proof.
  unfold RuneCount, stringtoslicerune. apply range_runes_ind.
  - unfold len. cbn. lia.
  - intros b s' _ IH. unfold len in *. cbn [length]. lia.
  - intros b s' r w _ Hd IH. apply decoderune_width in Hd.
    unfold len in *. cbn [length]. rewrite length_drop in IH. lia.
Qed.

Lemma isASCII_ValidString s : isASCII s = true -> ValidString s = true.
Proof.
  unfold ValidString. induction s as [|b s IH]; [reflexivity|]. intros H.
  apply isASCII_cons in H. destruct H as [Hb Hs]. cbn [valid_from]. unfold runeSelf.
  destruct (Z.ltb_spec (byteval b) 128); [apply IH, Hs | lia].
Qed.

Lemma isASCII_reverse s : isASCII (reverse s) = isASCII s.
Proof.
  unfold isASCII. induction s as [|b s IH]; [reflexivity|].
  rewrite reverse_cons, forallb_app, IH. cbn [forallb].
  rewrite andb_true_r. apply andb_comm.
Qed.

Lemma isASCII_app a b : isASCII (a ++ b) = isASCII a && isASCII b.
Proof. apply forallb_app. Qed.

Lemma Reverse_ascii_eq s :
  s <> [] -> isASCII s = true -> stringService.Reverse s = Return (reverse s, None).
Proof.
  intros Hs Ha. rewrite Reverse_nonempty by exact Hs.
  rewrite stringtoslicerune_ascii by exact Ha.
  change (map byteval s) with (byteval <$> s). rewrite <- fmap_reverse.
  rewrite slicerunetostring_ascii by (rewrite isASCII_reverse; exact Ha). reflexivity.
Qed.

Lemma reverse_nonempty {A} (l : list A) : l <> [] -> reverse l <> [].
Proof.
  intros Hl H. apply (f_equal reverse) in H. rewrite reverse_involutive in H.
  exact (Hl H).
Qed.

Lemma map_upperByte_fixed s : map upperByte s = s <-> no_lowercase s = true.
Proof.
  unfold no_lowercase. induction s as [|c s IH]; [split; reflexivity|].
  cbn [map forallb]. rewrite andb_true_iff, <- IH. split.
  - intros H. injection H as Hc Hs. split; [|exact Hs].
    rewrite <- Hc. rewrite isLower_upperByte. reflexivity.
  - intros [Hc Hs]. rewrite Hs. f_equal. unfold upperByte.
    destruct (isLower (byteval c)); [discriminate | reflexivity].
Qed.

(** ** Reverse *)

(** X1.  On a non-empty string [Reverse] succeeds, and the runes of its
    result are the runes of the string in reverse order. *)
Theorem Reverse_reverses_runes (s : gostring) :
  s <> [] ->
  exists v, stringService.Reverse s = Return (v, None)
    /\ stringtoslicerune v = reverse (stringtoslicerune s).
Proof.
  intros Hs. eexists. split; [apply Reverse_nonempty, Hs|].
  apply stringtoslicerune_slicerunetostring, Forall_reverse, stringtoslicerune_valid.
Qed.

Lemma Reverse_reverses_runes_witness :
  bytes [0x61; 0xC3; 0xA9; 0xFF] <> []
  /\ exists v, stringService.Reverse (bytes [0x61; 0xC3; 0xA9; 0xFF]) = Return (v, None)
       /\ stringtoslicerune v = reverse (stringtoslicerune (bytes [0x61; 0xC3; 0xA9; 0xFF])).
Proof.
  assert (H1 : bytes [0x61; 0xC3; 0xA9; 0xFF] <> []) by discriminate.
  exact (conj H1 (Reverse_reverses_runes _ H1)).
Defined.

(** X2.  The loop of [Reverse], started at the two ends of a slice, never
    indexes outside the slice and leaves the slice reversed; half the
    length of the slice bounds its iterations. *)
Theorem reverse_loop_in_bounds (r : list rune) (fuel : nat) :
  (length r <= 2 * fuel + 1)%nat ->
  reverse_loop fuel 0 (len r - 1) r = Return (reverse r).
Proof.
  intros Hf. pose proof (reverse_loop_middle fuel r [] []) as H.
  cbn [app length] in H. rewrite !app_nil_r in H.
  apply H; [reflexivity | exact Hf].
Qed.

Lemma reverse_loop_in_bounds_witness :
  (length [1; 2; 3; 4; 5] <= 2 * 2 + 1)%nat
  /\ reverse_loop 2 0 (len [1; 2; 3; 4; 5] - 1) [1; 2; 3; 4; 5] = Return [5; 4; 3; 2; 1].
Proof.
  assert (H : (length [1; 2; 3; 4; 5] <= 2 * 2 + 1)%nat) by (cbn; lia).
  exact (conj H (reverse_loop_in_bounds [1; 2; 3; 4; 5] 2 H)).
Defined.

(** X3.  On a non-empty ASCII string [Reverse] returns the bytes of the
    string in reverse order. *)
Theorem Reverse_ascii (s : gostring) :
  s <> [] -> isASCII s = true ->
  stringService.Reverse s = Return (reverse s, None).
Proof. apply Reverse_ascii_eq. Qed.

Lemma Reverse_ascii_witness :
  lit "hello" <> [] /\ isASCII (lit "hello") = true
  /\ stringService.Reverse (lit "hello") = Return (lit "olleh", None).
Proof.
  assert (H1 : lit "hello" <> []) by discriminate.
  assert (H2 : isASCII (lit "hello") = true) by reflexivity.
  exact (conj H1 (conj H2 (Reverse_ascii (lit "hello") H1 H2))).
Defined.

(** X4.  The result of [Reverse] on a non-empty string is valid UTF-8,
    whether the string was or not. *)
Theorem Reverse_returns_valid_utf8 (s : gostring) :
  s <> [] ->
  exists v, stringService.Reverse s = Return (v, None) /\ ValidString v = true.
Proof.
  intros Hs. eexists. split; [apply Reverse_nonempty, Hs|].
  apply ValidString_slicerunetostring, Forall_reverse, stringtoslicerune_valid.
Qed.

Lemma Reverse_returns_valid_utf8_witness :
  bytes [0xFF; 0x41] <> []
  /\ exists v, stringService.Reverse (bytes [0xFF; 0x41]) = Return (v, None)
       /\ ValidString v = true.
Proof.
  assert (H1 : bytes [0xFF; 0x41] <> []) by discriminate.
  exact (conj H1 (Reverse_returns_valid_utf8 _ H1)).
Defined.

(** X5.  On a non-empty string that is valid UTF-8, the result of
    [Reverse] has as many bytes as the string: [Count] gives the same
    number on both. *)
Theorem Reverse_keeps_Count (s : gostring) :
  s <> [] -> ValidString s = true ->
  exists v, stringService.Reverse s = Return (v, None)
    /\ stringService.Count v = stringService.Count s.
Proof.
  intros Hs Hv. eexists. split; [apply Reverse_nonempty, Hs|].
  unfold stringService.Count, len. rewrite length_slicerunetostring_reverse.
  rewrite slicerunetostring_stringtoslicerune by exact Hv. reflexivity.
Qed.

Lemma Reverse_keeps_Count_witness :
  bytes [0xC3; 0xA9; 0x41] <> [] /\ ValidString (bytes [0xC3; 0xA9; 0x41]) = true
  /\ exists v, stringService.Reverse (bytes [0xC3; 0xA9; 0x41]) = Return (v, None)
       /\ stringService.Count v = stringService.Count (bytes [0xC3; 0xA9; 0x41]).
Proof.
  assert (H1 : bytes [0xC3; 0xA9; 0x41] <> []) by discriminate.
  assert (H2 : ValidString (bytes [0xC3; 0xA9; 0x41]) = true) by reflexivity.
  exact (conj H1 (conj H2 (Reverse_keeps_Count _ H1 H2))).
Defined.

(** X6.  For non-empty strings [a] and [b] that are valid UTF-8, the
    reverse of [a ++ b] is the reverse of [b] followed by the reverse of
    [a]. *)
Theorem Reverse_app (a b : gostring) :
  a <> [] -> b <> [] -> ValidString a = true -> ValidString b = true ->
  exists va vb,
    stringService.Reverse a = Return (va, None)
    /\ stringService.Reverse b = Return (vb, None)
    /\ stringService.Reverse (a ++ b) = Return (vb ++ va, None).
Proof.
  intros Ha Hb Hva Hvb. eexists _, _.
  split; [apply Reverse_nonempty, Ha|]. split; [apply Reverse_nonempty, Hb|].
  rewrite Reverse_nonempty by (destruct a; [congruence | discriminate]).
  rewrite stringtoslicerune_app by exact Hva.
  rewrite reverse_app, slicerunetostring_app. reflexivity.
Qed.

Lemma Reverse_app_witness :
  bytes [0xC3; 0xA9] <> [] /\ lit "ab" <> []
  /\ ValidString (bytes [0xC3; 0xA9]) = true /\ ValidString (lit "ab") = true
  /\ exists va vb,
       stringService.Reverse (bytes [0xC3; 0xA9]) = Return (va, None)
       /\ stringService.Reverse (lit "ab") = Return (vb, None)
       /\ stringService.Reverse (bytes [0xC3; 0xA9] ++ lit "ab") = Return (vb ++ va, None).
Proof.
  assert (H1 : bytes [0xC3; 0xA9] <> []) by discriminate.
  assert (H2 : lit "ab" <> []) by discriminate.
  assert (H3 : ValidString (bytes [0xC3; 0xA9]) = true) by reflexivity.
  assert (H4 : ValidString (lit "ab") = true) by reflexivity.
  exact (conj H1 (conj H2 (conj H3 (conj H4 (Reverse_app _ _ H1 H2 H3 H4))))).
Defined.

(** ** Count *)

(** X7.  [Count s] is at least the number of characters of [s] and at most
    four times that number. *)
Theorem Count_between_runes (s : gostring) :
  exists n, stringService.Count s = Return n
    /\ RuneCount s <= n <= 4 * RuneCount s.
Proof. exists (len s). split; [reflexivity | apply RuneCount_bounds]. Qed.

(** ** Errors *)

(** X8.  When [Uppercase], [Reverse] or [Truncate] returns an error, the
    error is [ErrEmpty], the value returned with it is the empty string,
    and the input string was empty. *)
Theorem error_only_on_empty up (s : gostring) (l : Z) (v : gostring) (e : error) :
  stringService.Uppercase up s = Return (v, Some e)
  \/ stringService.Reverse s = Return (v, Some e)
  \/ stringService.Truncate s l = Return (v, Some e) ->
  s = [] /\ v = [] /\ e = ErrEmpty.
Proof.
  destruct s as [|b s].
  - cbn. intros [H|[H|H]]; injection H as <- <-; repeat split.
  - intros [H|[H|H]].
    + rewrite Uppercase_nonempty in H by discriminate. discriminate.
    + rewrite Reverse_nonempty in H by discriminate. discriminate.
    + unfold stringService.Truncate in H. rewrite streq_empty in H.
      destruct (slice_to (b :: s) l); discriminate.
Qed.

Lemma error_only_on_empty_witness :
  (stringService.Uppercase id emptyString = Return (emptyString, Some ErrEmpty)
   \/ stringService.Reverse emptyString = Return (emptyString, Some ErrEmpty)
   \/ stringService.Truncate emptyString 7 = Return (emptyString, Some ErrEmpty))
  /\ emptyString = [] /\ emptyString = [] /\ ErrEmpty = ErrEmpty.
Proof.
  assert (H : stringService.Uppercase id emptyString = Return (emptyString, Some ErrEmpty)
   \/ stringService.Reverse emptyString = Return (emptyString, Some ErrEmpty)
   \/ stringService.Truncate emptyString 7 = Return (emptyString, Some ErrEmpty))
    by (left; reflexivity).
  exact (conj H (error_only_on_empty id emptyString 7 emptyString ErrEmpty H)).
Defined.

(** ** Truncate *)

(** X9.  Truncating twice is truncating to the shorter length: for a
    non-empty string [s] and [0 <= k <= l <= len s] with [l] positive,
    [Truncate] of the result of [Truncate s l] to [k] is [Truncate s k]. *)
Theorem Truncate_Truncate (s : gostring) (l k : Z) :
  s <> [] -> 0 < l <= len s -> 0 <= k <= l ->
  exists v, stringService.Truncate s l = Return (v, None)
    /\ stringService.Truncate v k = stringService.Truncate s k.
Proof.
  intros Hs Hl Hk. exists (take (Z.to_nat l) s).
  split; [apply Truncate_in_range; [exact Hs | lia]|].
  assert (Hlen : len (take (Z.to_nat l) s) = l)
    by (unfold len in *; rewrite length_take; lia).
  rewrite !Truncate_in_range; try lia; try exact Hs.
  - rewrite take_take. f_equal. f_equal. f_equal. lia.
  - intros H. rewrite H in Hlen. unfold len in Hlen. cbn in Hlen. lia.
Qed.

Lemma Truncate_Truncate_witness :
  lit "hello" <> [] /\ 0 < 4 <= len (lit "hello") /\ 0 <= 2 <= 4
  /\ exists v, stringService.Truncate (lit "hello") 4 = Return (v, None)
       /\ stringService.Truncate v 2 = stringService.Truncate (lit "hello") 2.
Proof.
  assert (H1 : lit "hello" <> []) by discriminate.
  assert (H2 : 0 < 4 <= len (lit "hello")) by (vm_compute; split; [reflexivity | discriminate]).
  assert (H3 : 0 <= 2 <= 4) by lia.
  exact (conj H1 (conj H2 (conj H3 (Truncate_Truncate (lit "hello") 4 2 H1 H2 H3)))).
Defined.

(** X10.  Truncating a non-empty concatenation [a ++ b] to the length of
    [a] returns [a]. *)
Theorem Truncate_app (a b : gostring) :
  a ++ b <> [] ->
  stringService.Truncate (a ++ b) (len a) = Return (a, None).
Proof.
  intros H. rewrite Truncate_in_range.
  - unfold len. rewrite Nat2Z.id, take_app_length. reflexivity.
  - exact H.
  - unfold len. rewrite length_app. lia.
Qed.

Lemma Truncate_app_witness :
  lit "hel" ++ lit "lo" <> []
  /\ stringService.Truncate (lit "hel" ++ lit "lo") (len (lit "hel")) = Return (lit "hel", None).
Proof.
  assert (H : lit "hel" ++ lit "lo" <> []) by discriminate.
  exact (conj H (Truncate_app (lit "hel") (lit "lo") H)).
Defined.

(** X11.  On a non-empty string that is valid UTF-8, truncating to the
    number of bytes of the first [k] characters returns the first [k]
    characters. *)
Theorem Truncate_at_character_boundary (s : gostring) (k : Z) :
  s <> [] -> ValidString s = true ->
  stringService.Truncate s (len (first_chars k s)) = Return (first_chars k s, None).
Proof.
  intros Hs Hv. unfold first_chars.
  set (rs := stringtoslicerune s).
  assert (E : s = slicerunetostring (take (Z.to_nat k) rs)
                  ++ slicerunetostring (drop (Z.to_nat k) rs)).
  { rewrite <- slicerunetostring_app, take_drop. subst rs.
    symmetry. apply slicerunetostring_stringtoslicerune, Hv. }
  rewrite E at 1. rewrite Truncate_in_range.
  - unfold len. rewrite Nat2Z.id, take_app_length. reflexivity.
  - rewrite <- E. exact Hs.
  - unfold len. rewrite length_app. lia.
Qed.

Lemma Truncate_at_character_boundary_witness :
  bytes [0xC3; 0xA9; 0x41] <> [] /\ ValidString (bytes [0xC3; 0xA9; 0x41]) = true
  /\ stringService.Truncate (bytes [0xC3; 0xA9; 0x41])
       (len (first_chars 1 (bytes [0xC3; 0xA9; 0x41])))
     = Return (first_chars 1 (bytes [0xC3; 0xA9; 0x41]), None).
Proof.
  assert (H1 : bytes [0xC3; 0xA9; 0x41] <> []) by discriminate.
  assert (H2 : ValidString (bytes [0xC3; 0xA9; 0x41]) = true) by reflexivity.
  exact (conj H1 (conj H2 (Truncate_at_character_boundary _ 1 H1 H2))).
Defined.

(** ** Uppercase *)

(** X12.  On a non-empty ASCII string [Uppercase] returns the string
    itself exactly when the string has no lower-case letter. *)
Theorem Uppercase_fixed_point up (s : gostring) :
  s <> [] -> isASCII s = true ->
  (stringService.Uppercase up s = Return (s, None) <-> no_lowercase s = true).
Proof.
  intros Hs Ha. rewrite Uppercase_nonempty, ToUpper_ascii by assumption.
  rewrite <- map_upperByte_fixed. split; [|intros ->; reflexivity].
  intros H. injection H as H. exact H.
Qed.

Lemma Uppercase_fixed_point_witness :
  lit "HELLO, 42" <> [] /\ isASCII (lit "HELLO, 42") = true
  /\ no_lowercase (lit "HELLO, 42") = true
  /\ stringService.Uppercase id (lit "HELLO, 42") = Return (lit "HELLO, 42", None).
Proof.
  assert (H1 : lit "HELLO, 42" <> []) by discriminate.
  assert (H2 : isASCII (lit "HELLO, 42") = true) by reflexivity.
  assert (H3 : no_lowercase (lit "HELLO, 42") = true) by reflexivity.
  exact (conj H1 (conj H2 (conj H3
    (proj2 (Uppercase_fixed_point id (lit "HELLO, 42") H1 H2) H3)))).
Defined.

(** X13.  On a non-empty ASCII string the result of [Uppercase] is again
    ASCII and has as many bytes as the string. *)
Theorem Uppercase_keeps_Count up (s : gostring) :
  s <> [] -> isASCII s = true ->
  exists u, stringService.Uppercase up s = Return (u, None)
    /\ isASCII u = true
    /\ stringService.Count u = stringService.Count s.
Proof.
  intros Hs Ha. exists (map upperByte s).
  rewrite Uppercase_nonempty, ToUpper_ascii by assumption.
  split; [reflexivity|]. split; [apply isASCII_map_upperByte, Ha|].
  unfold stringService.Count, len. rewrite length_map. reflexivity.
Qed.

Lemma Uppercase_keeps_Count_witness :
  lit "hello" <> [] /\ isASCII (lit "hello") = true
  /\ exists u, stringService.Uppercase id (lit "hello") = Return (u, None)
       /\ isASCII u = true
       /\ stringService.Count u = stringService.Count (lit "hello").
Proof.
  assert (H1 : lit "hello" <> []) by discriminate.
  assert (H2 : isASCII (lit "hello") = true) by reflexivity.
  exact (conj H1 (conj H2 (Uppercase_keeps_Count id (lit "hello") H1 H2))).
Defined.

(** X14.  For non-empty ASCII strings [a] and [b], [Uppercase] of [a ++ b]
    is [Uppercase] of [a] followed by [Uppercase] of [b]. *)
Theorem Uppercase_app up (a b : gostring) :
  a <> [] -> b <> [] -> isASCII a = true -> isASCII b = true ->
  exists ua ub,
    stringService.Uppercase up a = Return (ua, None)
    /\ stringService.Uppercase up b = Return (ub, None)
    /\ stringService.Uppercase up (a ++ b) = Return (ua ++ ub, None).
Proof.
  intros Ha Hb Haa Hab. exists (map upperByte a), (map upperByte b).
  rewrite !Uppercase_nonempty by (assumption || (destruct a; [congruence | discriminate])).
  rewrite !ToUpper_ascii by (assumption || (rewrite isASCII_app, Haa, Hab; reflexivity)).
  rewrite map_app. repeat split.
Qed.

Lemma Uppercase_app_witness :
  lit "go" <> [] /\ lit "Kit" <> [] /\ isASCII (lit "go") = true /\ isASCII (lit "Kit") = true
  /\ exists ua ub,
       stringService.Uppercase id (lit "go") = Return (ua, None)
       /\ stringService.Uppercase id (lit "Kit") = Return (ub, None)
       /\ stringService.Uppercase id (lit "go" ++ lit "Kit") = Return (ua ++ ub, None).
Proof.
  assert (H1 : lit "go" <> []) by discriminate.
  assert (H2 : lit "Kit" <> []) by discriminate.
  assert (H3 : isASCII (lit "go") = true) by reflexivity.
  assert (H4 : isASCII (lit "Kit") = true) by reflexivity.
  exact (conj H1 (conj H2 (conj H3 (conj H4 (Uppercase_app id _ _ H1 H2 H3 H4))))).
Defined.

(** X15.  On a non-empty ASCII string [Uppercase] and [Reverse] commute:
    reversing the upper-cased string and upper-casing the reversed string
    give the same result. *)
Theorem Uppercase_Reverse_commute up (s : gostring) :
  s <> [] -> isASCII s = true ->
  exists u r x,
    stringService.Uppercase up s = Return (u, None)
    /\ stringService.Reverse s = Return (r, None)
    /\ stringService.Reverse u = Return (x, None)
    /\ stringService.Uppercase up r = Return (x, None).
Proof.
  intros Hs Ha. exists (map upperByte s), (reverse s), (reverse (map upperByte s)).
  rewrite Uppercase_nonempty, ToUpper_ascii by assumption.
  rewrite Reverse_ascii_eq by assumption.
  rewrite Reverse_ascii_eq
    by (apply isASCII_map_upperByte, Ha || (destruct s; [congruence | discriminate])).
  rewrite Uppercase_nonempty by (apply reverse_nonempty, Hs).
  rewrite ToUpper_ascii by (rewrite isASCII_reverse; exact Ha).
  change (map upperByte) with (fmap (M := list) upperByte).
  rewrite fmap_reverse. repeat split.
Qed.

Lemma Uppercase_Reverse_commute_witness :
  lit "hello" <> [] /\ isASCII (lit "hello") = true
  /\ exists u r x,
       stringService.Uppercase id (lit "hello") = Return (u, None)
       /\ stringService.Reverse (lit "hello") = Return (r, None)
       /\ stringService.Reverse u = Return (x, None)
       /\ stringService.Uppercase id r = Return (x, None).
Proof.
  assert (H1 : lit "hello" <> []) by discriminate.
  assert (H2 : isASCII (lit "hello") = true) by reflexivity.
  exact (conj H1 (conj H2 (Uppercase_Reverse_commute id (lit "hello") H1 H2))).
Defined.

(** ** Endpoints *)

(** X16.  Whatever service an endpoint is made from and whatever request
    it is given, when it returns, its error is nil and its response has
    the type of the endpoint: [uppercaseResponse] for the uppercase and
    the reverse endpoint, [countResponse] and [truncateResponse] for the
    other two. *)
Theorem endpoints_return_nil_error (svc : StringService) (request resp : any)
    (err : option error) :
  (makeUppercaseEndpoint svc request = Return (resp, err) ->
     err = None /\ exists x, resp = of_uppercaseResponse x)
  /\ (makeCountEndpoint svc request = Return (resp, err) ->
     err = None /\ exists x, resp = of_countResponse x)
  /\ (makeReverseEndpoint svc request = Return (resp, err) ->
     err = None /\ exists x, resp = of_uppercaseResponse x)
  /\ (makeTruncateEndpoint svc request = Return (resp, err) ->
     err = None /\ exists x, resp = of_truncateResponse x).
Proof.
  unfold makeUppercaseEndpoint, makeCountEndpoint, makeReverseEndpoint,
    makeTruncateEndpoint.
  split; [|split; [|split]]; intros H; destruct request; cbn in H; try discriminate.
  all: match type of H with
       | context [@Uppercase ?c ?s] => destruct (@Uppercase c s) as [[v [e|]]| |]
       | context [@Count ?c ?s] => destruct (@Count c s) as [v| |]
       | context [@Reverse ?c ?s] => destruct (@Reverse c s) as [[v [e|]]| |]
       | context [@Truncate ?c ?s ?l] => destruct (@Truncate c s l) as [[v [e|]]| |]
       end; cbn in H; try discriminate; injection H as <- <-; eauto.
Qed.

Lemma endpoints_return_nil_error_witness :
  makeReverseEndpoint (stringService.svc id) (of_stringRequest {| sreq_S := lit "ab" |})
  = Return (of_uppercaseResponse {| uresp_V := lit "ba"; uresp_Err := emptyString |}, None)
  /\ @None error = None
  /\ exists x, of_uppercaseResponse {| uresp_V := lit "ba"; uresp_Err := emptyString |}
               = of_uppercaseResponse x.
Proof.
  assert (H : makeReverseEndpoint (stringService.svc id)
                (of_stringRequest {| sreq_S := lit "ab" |})
              = Return (of_uppercaseResponse
                          {| uresp_V := lit "ba"; uresp_Err := emptyString |}, None))
    by reflexivity.
  exact (conj H (proj1 (proj2 (proj2
    (endpoints_return_nil_error (stringService.svc id) _ _ _))) H)).
Defined.





(** X19.  The error field of a response tells failure from success: the
    uppercase and the reverse endpoint answer every [stringRequest], and
    the truncate endpoint every [truncateRequest] it returns on, with an
    error field that is empty exactly when the string of the request is
    not empty. *)
Theorem response_err_empty_iff up (s : gostring) (l : Z) :
  (exists x, makeUppercaseEndpoint (stringService.svc up) (of_stringRequest {| sreq_S := s |})
             = Return (of_uppercaseResponse x, None)
             /\ (uresp_Err x = emptyString <-> s <> []))
  /\ (exists x, makeReverseEndpoint (stringService.svc up) (of_stringRequest {| sreq_S := s |})
                = Return (of_uppercaseResponse x, None)
                /\ (uresp_Err x = emptyString <-> s <> []))
  /\ (forall x, makeTruncateEndpoint (stringService.svc up)
                  (of_truncateRequest {| treq_S := s; treq_L := l |})
                = Return (of_truncateResponse x, None) ->
                (tresp_Err x = emptyString <-> s <> [])).
Proof.
  destruct (endpoints_return up s l) as (HU & _ & HR & HT).
  split; [|split].
  - eexists. split; [exact HU|]. destruct s; cbn; split; congruence.
  - eexists. split; [exact HR|]. destruct s; cbn; split; congruence.
  - intros x Hx. destruct s as [|b s].
    + rewrite HT in Hx by (left; reflexivity). injection Hx as <-.
      cbn. split; congruence.
    + destruct (Z_lt_le_dec l 0) as [Hl0|Hl0];
        [|destruct (Z_lt_le_dec (len (b :: s)) l) as [Hl1|Hl1]].
      * rewrite makeTruncateEndpoint_out_of_range in Hx by (discriminate || lia).
        discriminate.
      * rewrite makeTruncateEndpoint_out_of_range in Hx by (discriminate || lia).
        discriminate.
      * rewrite HT in Hx by (right; lia). injection Hx as <-. cbn. split; congruence.
Qed.

Lemma response_err_empty_iff_witness :
  makeTruncateEndpoint (stringService.svc id)
    (of_truncateRequest {| treq_S := lit "hello"; treq_L := 3 |})
  = Return (of_truncateResponse {| tresp_V := lit "hel"; tresp_Err := emptyString |}, None)
  /\ (emptyString = emptyString <-> lit "hello" <> []).
Proof.
  assert (H : makeTruncateEndpoint (stringService.svc id)
                (of_truncateRequest {| treq_S := lit "hello"; treq_L := 3 |})
              = Return (of_truncateResponse
                          {| tresp_V := lit "hel"; tresp_Err := emptyString |}, None))
    by reflexivity.
  exact (conj H (proj2 (proj2 (response_err_empty_iff id (lit "hello") 3)) _ H)).
Defined.
